(** * A bounded single-producer/single-consumer ring buffer

    Shallow embedding of [Lock_Free_Ring_Buffer/spsc_queue.cpp]: the class
    template [SPSCQueue<T, PowerOfTwoCapacity>] with its three producer
    operations, its consumer operation, the two advisory queries and the
    teardown loop, followed by the single-threaded properties of the
    queue.

    Conventions of the model:
    - [std::size_t] is a 64-bit unsigned integer, modelled as [Z] with the
      wrap-around of [+] and [-] written out ([size_t_wrap]);
    - the raw storage [buf_] is a list of slots; a slot is [None] while it
      holds no object and [Some x] while an object of value [x] lives in
      it (between placement-new and the explicit destructor call);
    - an operation either returns, or leaves by an exception thrown by a
      special member of [T], or has undefined behaviour (a slot index out
      of the array, reading or destroying a slot without a live object);
    - the atomic loads and stores are modelled as plain reads and writes
      of the two indices: the model is the sequential semantics of the
      class, one operation at a time. *)

From Stdlib Require Import ZArith Lia.
From stdpp Require Import base numbers list relations.

Local Open Scope Z_scope.

(** ** Machine integers *)

Definition SIZE_BITS : Z := 64.

(** The value of a [std::size_t] expression whose mathematical value is [x]. *)
Definition size_t_wrap (x : Z) : Z := x mod 2 ^ SIZE_BITS.

(** ** Outcomes of a call *)

(** What evaluating the construction or assignment of a [T] gives: the new
    object's value, or an exception. *)
Inductive attempt (exn A : Type) : Type :=
| Done (a : A)
| Raise (e : exn).
Arguments Done {exn A} a.
Arguments Raise {exn A} e.

(** What a member function gives on a queue in state [s]: a return value
    and the new state, an exception leaving the function with the state as
    it was when thrown, undefined behaviour, or (for the model of a loop)
    exhaustion of the iteration budget. *)
Inductive outcome (exn S A : Type) : Type :=
| Returned (a : A) (s : S)
| Threw (e : exn) (s : S)
| Undefined
| OutOfFuel.
Arguments Returned {exn S A} a s.
Arguments Threw {exn S A} e s.
Arguments Undefined {exn S A}.
Arguments OutOfFuel {exn S A}.

Definition M (exn S A : Type) : Type := S -> outcome exn S A.

Definition ret {exn S A} (a : A) : M exn S A := fun s => Returned a s.

Definition bind {exn S A B} (c : M exn S A) (k : A -> M exn S B) : M exn S B :=
  fun s =>
    match c s with
    | Returned a s' => k a s'
    | Threw e s' => Threw e s'
    | Undefined => Undefined
    | OutOfFuel => OutOfFuel
    end.

Declare Scope queue_scope.
Delimit Scope queue_scope with queue.
Notation "x <- c ;; k" := (bind c (fun x => k))
  (at level 100, c at next level, right associativity) : queue_scope.
Notation "c ;; k" := (bind c (fun _ => k))
  (at level 100, right associativity) : queue_scope.

(** ** The element type *)

(** The special members of [T] that the queue calls. [move_construct]
    gives the value of the new object only: the moved-from argument is the
    caller's and not part of the queue. [copy_assign dst src] gives the
    new value of [dst]. *)
Class Element (exn T : Type) : Type := {
  copy_construct : T -> attempt exn T;
  move_construct : T -> attempt exn T;
  copy_assign : T -> T -> attempt exn T;
}.

(** Copies and moves that succeed yield the value of their source. *)
Class Faithful {exn T} (E : Element exn T) : Prop := {
  copy_construct_value v w : copy_construct v = Done w -> w = v;
  move_construct_value v w : move_construct v = Done w -> w = v;
  copy_assign_value d s w : copy_assign d s = Done w -> w = s;
}.

(** None of the special members throws. *)
Class NoThrow {exn T} (E : Element exn T) : Prop := {
  copy_construct_nothrow v : exists w, copy_construct v = Done w;
  move_construct_nothrow v : exists w, move_construct v = Done w;
  copy_assign_nothrow d s : exists w, copy_assign d s = Done w;
}.

(** ** The queue *)

Record SPSCQueue (T : Type) : Type := mkQueue {
  buf_ : list (option T);
  head_ : Z;
  tail_ : Z;
}.
Arguments mkQueue {T} buf_ head_ tail_.
Arguments buf_ {T} s.
Arguments head_ {T} s.
Arguments tail_ {T} s.

Section Queue.
Context {exn T : Type} {E : Element exn T}.
(** The template parameter [PowerOfTwoCapacity]. *)
Variable CAP : Z.

Local Open Scope queue_scope.

Local Abbreviation queue := (SPSCQueue T).
Local Abbreviation Q := (M exn queue).

Definition MASK : Z := size_t_wrap (CAP - 1).

(** The two [static_assert]s of the constructor. *)
Definition valid_capacity : bool :=
  (2 <=? CAP) && (Z.land CAP (size_t_wrap (CAP - 1)) =? 0).

(** [SPSCQueue()]: both indices zero, storage without objects. *)
Definition init : queue :=
  mkQueue (replicate (Z.to_nat CAP) None) 0 0.

Definition load_head : Q Z := fun q => Returned (head_ q) q.
Definition load_tail : Q Z := fun q => Returned (tail_ q) q.
Definition store_head (v : Z) : Q unit :=
  fun q => Returned tt (mkQueue (buf_ q) v (tail_ q)).
Definition store_tail (v : Z) : Q unit :=
  fun q => Returned tt (mkQueue (buf_ q) (head_ q) v).

(** [&buf_[i]]: a pointer into the array is a slot index inside it. *)
Definition elem_addr (i : Z) : Q Z :=
  fun q =>
    if (0 <=? i) && (i <? CAP) && (Z.to_nat i <? length (buf_ q))%nat
    then Returned i q else Undefined.
Definition elem_ptr (i : Z) : Q Z := elem_addr i.

(** [::new (p) T(...)], the constructor call being [c]: the slot holds
    the new object once the constructor has returned. *)
Definition placement_new (p : Z) (c : attempt exn T) : Q unit :=
  fun q =>
    match c with
    | Done x => Returned tt (mkQueue (<[Z.to_nat p := Some x]> (buf_ q)) (head_ q) (tail_ q))
    | Raise e => Threw e q
    end.

(** [*p]: the object living at [p]. *)
Definition deref (p : Z) : Q T :=
  fun q =>
    match buf_ q !! Z.to_nat p with
    | Some (Some x) => Returned x q
    | _ => Undefined
    end.

(** [p->~T()], for a destructor that returns; [DtorQueue.destroy]
    below is the call for any destructor. *)
Definition destroy (p : Z) : Q unit :=
  fun q =>
    match buf_ q !! Z.to_nat p with
    | Some (Some _) => Returned tt (mkQueue (<[Z.to_nat p := None]> (buf_ q)) (head_ q) (tail_ q))
    | _ => Undefined
    end.

(** A call of a special member that may throw. *)
Definition eval (c : attempt exn T) : Q T :=
  fun q => match c with Done x => Returned x q | Raise e => Threw e q end.

(** [bool try_push(const T &value)] *)
Definition try_push (value : T) : Q bool :=
  head <- load_head ;;
  let next := Z.land (size_t_wrap (head + 1)) MASK in
  tail <- load_tail ;;
  if next =? tail then ret false
  else
    p <- elem_addr head ;;
    placement_new p (copy_construct value) ;;
    store_head next ;;
    ret true.

(** [bool try_push(T &&value)] *)
Definition try_push_move (value : T) : Q bool :=
  head <- load_head ;;
  let next := Z.land (size_t_wrap (head + 1)) MASK in
  tail <- load_tail ;;
  if next =? tail then ret false
  else
    p <- elem_addr head ;;
    placement_new p (move_construct value) ;;
    store_head next ;;
    ret true.

(** [template <class... Args> bool try_emplace(Args &&...args)]; [ctor]
    is the constructor of [T] that the arguments select. *)
Definition try_emplace {Args : Type} (ctor : Args -> attempt exn T) (args : Args) : Q bool :=
  head <- load_head ;;
  let next := Z.land (size_t_wrap (head + 1)) MASK in
  tail <- load_tail ;;
  if next =? tail then ret false
  else
    p <- elem_addr head ;;
    placement_new p (ctor args) ;;
    store_head next ;;
    ret true.

(** [bool try_pop(T &out)]: the result carries the value of [out] after
    the call. *)
Definition try_pop (out : T) : Q (bool * T) :=
  tail <- load_tail ;;
  head <- load_head ;;
  if tail =? head then ret (false, out)
  else
    p <- elem_ptr tail ;;
    x <- deref p ;;
    out' <- eval (copy_assign out x) ;;
    destroy p ;;
    store_tail (Z.land (size_t_wrap (tail + 1)) MASK) ;;
    ret (true, out').

(** [bool empty() const noexcept] *)
Definition empty (q : queue) : bool := tail_ q =? head_ q.

(** [bool full() const noexcept] *)
Definition full (q : queue) : bool :=
  let head := head_ q in
  let next := Z.land (size_t_wrap (head + 1)) MASK in
  next =? tail_ q.

(** The [while (tail != head)] loop of [clear], with an iteration
    budget. It returns the final value of the local [tail] and, as a
    ghost result, the destructor calls it made, in order: slot index
    and value of the object destroyed. *)
Fixpoint clear_loop (fuel : nat) (tail head : Z) : Q (Z * list (Z * T)) :=
  if tail =? head then ret (tail, [])
  else
    match fuel with
    | O => fun _ => OutOfFuel
    | S fuel' =>
        p <- elem_ptr tail ;;
        x <- deref p ;;
        destroy p ;;
        r <- clear_loop fuel' (Z.land (size_t_wrap (tail + 1)) MASK) head ;;
        ret (r.1, (p, x) :: r.2)
    end.

(** [void clear() noexcept] *)
Definition clear (fuel : nat) : Q (list (Z * T)) :=
  tail <- load_tail ;;
  head <- load_head ;;
  r <- clear_loop fuel tail head ;;
  store_tail r.1 ;;
  ret r.2.

(** [~SPSCQueue() { clear(); }] *)
Definition destructor (fuel : nat) : Q (list (Z * T)) := clear fuel.

(** ** Specification vocabulary *)

(** Slot [k] places after slot [t] on the ring. *)
Definition slot (t : Z) (k : nat) : Z := (t + Z.of_nat k) mod CAP.

(** Storage [b] with read cursor [t] and write cursor [h] holds the
    sequence [l], oldest element first: the objects of [l] live in the
    consecutive ring slots from [t] on, every other slot holds no
    object, and [h] is the slot after the last one. *)
Record Rep_at (b : list (option T)) (t h : Z) (l : list T) : Prop := {
  rep_buf : length b = Z.to_nat CAP;
  rep_tail : 0 <= t < CAP;
  rep_count : Z.of_nat (length l) < CAP;
  rep_head : h = slot t (length l);
  rep_slots : forall k : nat,
    Z.of_nat k < CAP -> b !! Z.to_nat (slot t k) = Some (l !! k);
}.

Definition Rep (q : queue) (l : list T) : Prop :=
  Rep_at (buf_ q) (tail_ q) (head_ q) l.

(** A slot index that [elem_addr] accepts. *)
Definition in_array (i : Z) (q : queue) : bool :=
  (0 <=? i) && (i <? CAP) && (Z.to_nat i <? length (buf_ q))%nat.

(** The class invariant on the shape of a state: [CAP] slots and both
    indices inside the array. *)
Definition well_formed (q : queue) : Prop :=
  length (buf_ q) = Z.to_nat CAP /\ 0 <= head_ q < CAP /\ 0 <= tail_ q < CAP.

(** The destructor calls that draining [l] from read cursor [t] makes:
    the [k]-th call is on slot [(t + k) mod CAP]. *)
Definition drain_trace (t : Z) (l : list T) : list (Z * T) :=
  imap (fun k x => (slot t k, x)) l.

(** The state in which a call leaves the queue, when it returns or
    throws. *)
Definition final_state {A} (o : outcome exn queue A) : option queue :=
  match o with
  | Returned _ s | Threw _ s => Some s
  | Undefined | OutOfFuel => None
  end.

(** One producer or consumer call, whatever its arguments and result. *)
Inductive step : queue -> queue -> Prop :=
| step_push v q q' :
    final_state (try_push v q) = Some q' -> step q q'
| step_push_move v q q' :
    final_state (try_push_move v q) = Some q' -> step q q'
| step_emplace (Args : Type) (ctor : Args -> attempt exn T) args q q' :
    final_state (try_emplace ctor args q) = Some q' -> step q q'
| step_pop out q q' :
    final_state (try_pop out q) = Some q' -> step q q'.

(** The states a single thread reaches from a new queue. *)
Definition reachable (q : queue) : Prop := rtc step init q.

(** The calls of a single-threaded client. [Pop out] is a call of
    [try_pop] on a variable whose value is [out]. *)
Inductive op : Type :=
| Push (v : T)
| PushMove (v : T)
| Pop (out : T).

(** What a client observes: the values it supplied to the pushes that
    returned [true], and the values the pops that returned [true] left
    in its variable, both in call order. *)
Record history : Type := mkHistory {
  pushed : list T;
  popped : list T;
}.

Definition record_push (v : T) (r : outcome exn queue bool) (h : history)
  : option (history * queue) :=
  match r with
  | Returned true q' => Some (mkHistory (pushed h ++ [v]) (popped h), q')
  | Returned false q' | Threw _ q' => Some (h, q')
  | Undefined | OutOfFuel => None
  end.

Definition record_pop (r : outcome exn queue (bool * T)) (h : history)
  : option (history * queue) :=
  match r with
  | Returned (true, x) q' => Some (mkHistory (pushed h) (popped h ++ [x]), q')
  | Returned (false, _) q' | Threw _ q' => Some (h, q')
  | Undefined | OutOfFuel => None
  end.

(** Run the calls in order; a call that throws is caught by the client,
    which goes on with the next call. [None] when a call has undefined
    behaviour. *)
Fixpoint run (ops : list op) (h : history) (q : queue) : option (history * queue) :=
  match ops with
  | [] => Some (h, q)
  | o :: ops' =>
      let r :=
        match o with
        | Push v => record_push v (try_push v q) h
        | PushMove v => record_push v (try_push_move v q) h
        | Pop out => record_pop (try_pop out q) h
        end in
      match r with
      | Some (h', q') => run ops' h' q'
      | None => None
      end
  end.

(** [vs] pushed one after the other: the results of the calls. *)
Fixpoint push_each (vs : list T) : M exn queue (list bool) :=
  match vs with
  | [] => ret []
  | v :: vs' => (b <- try_push v ;; bs <- push_each vs' ;; ret (b :: bs))%queue
  end.

(** [n] pops into one variable, as the consumer loop of [main] does:
    the result and the value of the variable after each call. *)
Fixpoint pop_n (n : nat) (out : T) : M exn queue (list (bool * T)) :=
  match n with
  | O => ret []
  | S n' => (r <- try_pop out ;; rs <- pop_n n' r.2 ;; ret (r :: rs))%queue
  end.

End Queue.

(** ** Which element types the member functions accept *)

(** A member function of the class template is instantiated when it is
    called, and is then well-formed if the special members of [T] that its
    body names can be called. *)
Module Instantiation.

Inductive member : Type :=
| Provided
| Deleted
| NotDeclared.

Record special_members : Type := {
  copy_constructor : member;
  move_constructor : member;
  copy_assignment : member;
  move_assignment : member;
  destructor_member : member;
}.

(** The value category of an argument expression of type [T]. *)
Inductive category : Type :=
| Lvalue
| Rvalue.

Definition callable (m : member) : bool :=
  match m with Provided => true | Deleted | NotDeclared => false end.

(** Overload resolution between the copy and the move version of a
    special member: an lvalue selects the copy version; an rvalue selects
    the move version when it is declared (also when declared deleted), and
    the copy version otherwise. *)
Definition selected (copy move : member) (c : category) : member :=
  match c with
  | Lvalue => copy
  | Rvalue => match move with NotDeclared => copy | _ => move end
  end.

(** [T(arg)] *)
Definition constructible (t : special_members) (c : category) : bool :=
  callable (selected (copy_constructor t) (move_constructor t) c).

(** [dst = arg] *)
Definition assignable (t : special_members) (c : category) : bool :=
  callable (selected (copy_assignment t) (move_assignment t) c).

(** [p->~T()] *)
Definition destructible (t : special_members) : bool :=
  callable (destructor_member t).

Inductive member_function : Type :=
| TryPushCopy
| TryPushMove
| TryPop
| Clear.

(** The calls of special members in each body: [T(value)] with [value] a
    [const T &]; [T(std::move(value))]; [out = *p] followed by [p->~T()];
    [elem_ptr(tail)->~T()]. *)
Definition well_formed_for (f : member_function) (t : special_members) : bool :=
  match f with
  | TryPushCopy => constructible t Lvalue
  | TryPushMove => constructible t Rvalue
  | TryPop => assignable t Lvalue && destructible t
  | Clear => destructible t
  end.

(** Movable but not copyable. *)
Definition move_only (t : special_members) : Prop :=
  callable (move_constructor t) = true /\
  callable (move_assignment t) = true /\
  callable (copy_constructor t) = false /\
  callable (copy_assignment t) = false /\
  callable (destructor_member t) = true.

(** [std::unique_ptr<int>]. *)
Definition unique_ptr : special_members := {|
  copy_constructor := Deleted;
  move_constructor := Provided;
  copy_assignment := Deleted;
  move_assignment := Provided;
  destructor_member := Provided;
|}.

End Instantiation.

(** ** Concrete instances *)

(** An element type like the [std::uint64_t] of [main]: no special member
    throws. *)
Definition plain_element : Element unit Z := {|
  copy_construct v := Done v;
  move_construct v := Done v;
  copy_assign _ s := Done s;
|}.

(** An element type whose constructors throw on a negative value. *)
Definition checked_element : Element unit Z := {|
  copy_construct v := if v <? 0 then Raise tt else Done v;
  move_construct v := if v <? 0 then Raise tt else Done v;
  copy_assign _ s := Done s;
|}.

(** A queue of capacity 4 after [try_push(7)] and [try_push(8)]. *)
Definition two_pushed : SPSCQueue Z :=
  mkQueue [Some 7; Some 8; None; None] 2 0.

(** An element type whose copy constructor throws and whose move
    constructor does not. *)
Definition copy_throwing_element : Element unit Z := {|
  copy_construct _ := Raise tt;
  move_construct v := Done v;
  copy_assign _ s := Done s;
|}.

(** An element type whose copy assignment throws on a negative source. *)
Definition fragile_element : Element unit Z := {|
  copy_construct v := Done v;
  move_construct v := Done v;
  copy_assign _ s := if s <? 0 then Raise tt else Done s;
|}.

(** ** The driver: [main] of [spsc_queue.cpp] *)

(** [std::uint64_t] and [unsigned long long] arithmetic. *)
Definition uint64_wrap (x : Z) : Z := x mod 2 ^ 64.

(** Where [main] goes once it has read the capacity: [return 1] after the
    message on a bad capacity, the body of [RUN_WITH_CAP] for one of the
    six instantiated sizes, or [return 2]. *)
Inductive dispatch : Type :=
| Rejected
| RunWithCap (cap : Z)
| Unsupported.

(** The sizes listed by the [RUN_WITH_CAP] lines, in order. *)
Definition supported_capacities : list Z :=
  [Z.shiftl 1 10; Z.shiftl 1 12; Z.shiftl 1 14; Z.shiftl 1 16; Z.shiftl 1 18; Z.shiftl 1 20].

(** [CAP] as [main] computes it: [argv[1]] when given, [1u << 16]
    otherwise. [argv1] is the number that the unsigned decimal numeral
    [argv[1]] denotes; [strtoull] gives [ULLONG_MAX] for a number out of
    the range of [unsigned long long]. *)
Definition main_capacity (argv1 : option Z) : Z :=
  match argv1 with
  | Some c => size_t_wrap (Z.min c (2 ^ 64 - 1))
  | None => Z.shiftl 1 16
  end.

(** The chain [if (CAP == (CAPPOW2)) { ... return 0; }]. *)
Fixpoint run_with_cap (CAP : Z) (sizes : list Z) : dispatch :=
  match sizes with
  | [] => Unsupported
  | c :: sizes' => if CAP =? c then RunWithCap c else run_with_cap CAP sizes'
  end.

Definition main_dispatch (CAP : Z) : dispatch :=
  if negb (Z.land CAP (size_t_wrap (CAP - 1)) =? 0) || (CAP <? 2) then Rejected
  else run_with_cap CAP supported_capacities.

(** *** The benchmark of [RUN_WITH_CAP]

    The two thread bodies are modelled under interleaving at the
    granularity of whole calls: a step of a thread is one evaluation of
    the condition of its spin loop ([!q->try_push(v)] or
    [!q->try_pop(v)]) together with, when the call has succeeded, the
    rest of the iteration of its [for] loop. The element type is
    [std::uint64_t] ([plain_element]). *)

(** The queue and the variables of the two lambdas. *)
Record bench : Type := mkBench {
  bench_q : SPSCQueue Z;
  prod_i : Z;
  produced : Z;
  cons_i : Z;
  cons_v : Z;
  cons_sum : Z;
  consumed : Z;
}.

Inductive thread : Type :=
| Producer
| Consumer.

(** The state when [go] is set; [v0] is the indeterminate initial value
    of the consumer's [value_t v]. *)
Definition bench_init (CAP v0 : Z) : bench :=
  mkBench (init CAP) 0 0 0 v0 0 0.

Definition producer_step (CAP N : Z) (s : bench) : option bench :=
  if prod_i s <? N then
    let v := uint64_wrap (prod_i s) in
    match try_push (E:=plain_element) CAP v (bench_q s) with
    | Returned true q' =>
        Some (mkBench q' (size_t_wrap (prod_i s + 1)) (size_t_wrap (produced s + 1))
                (cons_i s) (cons_v s) (cons_sum s) (consumed s))
    | Returned false q' =>
        Some (mkBench q' (prod_i s) (produced s)
                (cons_i s) (cons_v s) (cons_sum s) (consumed s))
    | Threw _ _ | Undefined | OutOfFuel => None
    end
  else Some s.

Definition consumer_step (CAP N : Z) (s : bench) : option bench :=
  if cons_i s <? N then
    match try_pop (E:=plain_element) CAP (cons_v s) (bench_q s) with
    | Returned (true, v) q' =>
        Some (mkBench q' (prod_i s) (produced s)
                (size_t_wrap (cons_i s + 1)) v (uint64_wrap (cons_sum s + v))
                (size_t_wrap (consumed s + 1)))
    | Returned (false, v) q' =>
        Some (mkBench q' (prod_i s) (produced s)
                (cons_i s) v (cons_sum s) (consumed s))
    | Threw _ _ | Undefined | OutOfFuel => None
    end
  else Some s.

Definition thread_step (CAP N : Z) (t : thread) (s : bench) : option bench :=
  match t with
  | Producer => producer_step CAP N s
  | Consumer => consumer_step CAP N s
  end.

(** The steps of a schedule, in order; [None] when a call has undefined
    behaviour. *)
Fixpoint run_schedule (CAP N : Z) (sched : list thread) (s : bench) : option bench :=
  match sched with
  | [] => Some s
  | t :: sched' =>
      match thread_step CAP N t s with
      | Some s' => run_schedule CAP N sched' s'
      | None => None
      end
  end.

(** Both [for] loops have run to their end: the threads can be joined. *)
Definition joined (N : Z) (s : bench) : bool :=
  (prod_i s =? N) && (cons_i s =? N).

(** [(unsigned long long)N * (N - 1ull) / 2] *)
Definition expected (N : Z) : Z :=
  uint64_wrap (uint64_wrap N * uint64_wrap (uint64_wrap N - 1)) / 2.

(** [sum == expected], what [Checksum OK?] prints. *)
Definition checksum_ok (N : Z) (s : bench) : bool :=
  cons_sum s =? expected N.

(** What holds of the benchmark between steps: the consumer is behind
    the producer, the queue holds the values produced and not yet
    consumed, and the sum is that of the values consumed. *)
Record bench_inv (CAP N : Z) (s : bench) : Prop := {
  inv_order : 0 <= cons_i s <= prod_i s /\ prod_i s <= N;
  inv_queue : Rep (T:=Z) CAP (bench_q s) (seqZ (cons_i s) (prod_i s - cons_i s));
  inv_sum : cons_sum s = uint64_wrap (cons_i s * (cons_i s - 1) / 2);
  inv_produced : produced s = prod_i s;
  inv_consumed : consumed s = cons_i s;
}.

(** ** The fixed-slot pool of [ObjectPool.hpp] *)

(** The class template [ObjectPool<T, N>]: [N] slots of raw storage and
    a free list threaded through the array [_next_free]. A [T *] into
    the pool is its byte offset from [&_buf[0]]; [nullptr] is [None]. A
    failed [assert] ends the program, and without it the access that
    follows is out of bounds: both are [Undefined]. *)
Module ObjectPool.

(** The value of an [int] expression whose mathematical value is [x]. *)
Definition int_cast (x : Z) : Z := (x + 2 ^ 31) mod 2 ^ 32 - 2 ^ 31.

Definition INT_MAX : Z := 2 ^ 31 - 1.

Definition _kEmpty : Z := -1.

Record pool (T : Type) : Type := mkPool {
  _buf : list (option T);
  _next_free : list Z;
  _head : Z;
  _free_count : Z;
}.
Arguments mkPool {T} _ _ _ _.
Arguments _buf {T} p.
Arguments _next_free {T} p.
Arguments _head {T} p.
Arguments _free_count {T} p.

Section Pool.
Context {exn T : Type}.
(** The template parameter [N] and [sizeof(Slot)]. *)
Variables N slot_size : Z.

Local Open Scope queue_scope.
Local Abbreviation P := (M exn (pool T)).

(** The two [static_assert]s. *)
Definition valid_size : bool := (0 <? N) && (N <=? INT_MAX).

(** [ObjectPool()]: slot [i] links to slot [i + 1], the last one to
    [_kEmpty]; [_head] is 0 and every slot is free. *)
Definition new_pool : pool T :=
  let linked :=
    foldl (fun nf i => <[Z.to_nat i := int_cast (i + 1)]> nf)
      (replicate (Z.to_nat N) 0) (seqZ 0 (size_t_wrap (N - 1))) in
  mkPool (replicate (Z.to_nat N) None)
    (<[Z.to_nat (size_t_wrap (N - 1)) := _kEmpty]> linked) 0 N.

(** [_next_free[i]] *)
Definition next_free_at (i : Z) (p : pool T) : option Z :=
  if (0 <=? i) && (i <? N) then _next_free p !! Z.to_nat i else None.

(** [int allocate_index()] *)
Definition allocate_index : P Z :=
  fun p =>
    if _free_count p =? 0 then Returned _kEmpty p
    else
      let index := _head p in
      match next_free_at index p with
      | Some next =>
          Returned index
            (mkPool (_buf p) (_next_free p) next (size_t_wrap (_free_count p - 1)))
      | None => Undefined
      end.

(** [void release_index(int i)] *)
Definition release_index (i : Z) : P unit :=
  fun p =>
    if (0 <=? i) && (i <? int_cast N) && (Z.to_nat i <? length (_next_free p))%nat then
      Returned tt
        (mkPool (_buf p) (<[Z.to_nat i := _head p]> (_next_free p)) i
           (size_t_wrap (_free_count p + 1)))
    else Undefined.

(** [T *ptr_from_index(int i)] *)
Definition ptr_from_index (i : Z) : Z := i * slot_size.

(** [int index_from_ptr(const T *p) const]; the remainder and the
    quotient are taken after the conversion of [bytes] to
    [std::size_t]. *)
Definition index_from_ptr (pc : Z) : P Z :=
  fun p =>
    let bytes := pc in
    if size_t_wrap bytes mod slot_size =? 0 then
      let i := int_cast (size_t_wrap bytes / slot_size) in
      if (0 <=? i) && (i <? int_cast N) then Returned i p else Undefined
    else Undefined.

(** [::new (addr) T(...)], the constructor call being [c]. *)
Definition construct_at (addr : Z) (c : attempt exn T) : P Z :=
  fun p =>
    if (0 <=? addr) && (addr mod slot_size =? 0)
       && (Z.to_nat (addr / slot_size) <? length (_buf p))%nat then
      match c with
      | Done x =>
          Returned addr
            (mkPool (<[Z.to_nat (addr / slot_size) := Some x]> (_buf p))
               (_next_free p) (_head p) (_free_count p))
      | Raise e => Threw e p
      end
    else Undefined.

(** [p->~T()], for a destructor that returns; [DtorPool.destroy_at]
    below is the call for any destructor. *)
Definition destroy_at (pc : Z) : P unit :=
  fun p =>
    if (0 <=? pc) && (pc mod slot_size =? 0) then
      match _buf p !! Z.to_nat (pc / slot_size) with
      | Some (Some _) =>
          Returned tt
            (mkPool (<[Z.to_nat (pc / slot_size) := None]> (_buf p))
               (_next_free p) (_head p) (_free_count p))
      | _ => Undefined
      end
    else Undefined.

(** [try { return c; } catch (...) { h; throw; }] *)
Definition try_catch_rethrow {A} (c : P A) (h : P unit) : P A :=
  fun p =>
    match c p with
    | Threw e p' =>
        match h p' with
        | Returned _ p'' => Threw e p''
        | Threw e' p'' => Threw e' p''
        | Undefined => Undefined
        | OutOfFuel => OutOfFuel
        end
    | r => r
    end.

(** [template <class... Args> T *create(Args &&...args)] *)
Definition create {Args : Type} (ctor : Args -> attempt exn T) (args : Args) : P (option Z) :=
  index <- allocate_index ;;
  if index =? _kEmpty then ret None
  else
    let addr := ptr_from_index index in
    try_catch_rethrow
      (a <- construct_at addr (ctor args) ;; ret (Some a))
      (release_index index).

Definition assert (b : bool) : P unit :=
  fun p => if b then Returned tt p else Undefined.

(** [void destroy(T *p)] *)
Definition destroy (p : option Z) : P unit :=
  match p with
  | None => assert false
  | Some pc =>
      index <- index_from_ptr pc ;;
      assert ((0 <=? index) && (index <? int_cast N)) ;;
      destroy_at pc ;;
      release_index index
  end.

(** [constexpr std::size_t capacity() const noexcept] *)
Definition capacity (p : pool T) : Z := N.

(** [std::size_t free_slots() const noexcept] *)
Definition free_slots (p : pool T) : Z := _free_count p.

(** *** Specification vocabulary *)

(** The number of slots in which an object lives. *)
Definition live_count (b : list (option T)) : nat :=
  length (filter (fun o => is_Some o) b).

(** [fl] is the chain of indices that starts at [h] and follows
    [_next_free] to [_kEmpty]. *)
Fixpoint chain (nf : list Z) (h : Z) (fl : list Z) : Prop :=
  match fl with
  | [] => h = _kEmpty
  | i :: fl' => h = i /\ exists next, nf !! Z.to_nat i = Some next /\ chain nf next fl'
  end.

(** The state holds the free list [fl], next slot to hand out first:
    its indices are distinct slots without an object, every other slot
    holds one, and [_free_count] is its length. *)
Record PoolRep (p : pool T) (fl : list Z) : Prop := {
  pool_slots : length (_buf p) = Z.to_nat N;
  pool_links : length (_next_free p) = Z.to_nat N;
  pool_chain : chain (_next_free p) (_head p) fl;
  pool_nodup : NoDup fl;
  pool_free : forall i, i ∈ fl <-> 0 <= i < N /\ _buf p !! Z.to_nat i = Some None;
  pool_free_count : _free_count p = Z.of_nat (length fl);
  pool_live_count : (live_count (_buf p) + length fl)%nat = Z.to_nat N;
}.

Definition pool_final_state {A} (o : outcome exn (pool T) A) : option (pool T) :=
  match o with
  | Returned _ s | Threw _ s => Some s
  | Undefined | OutOfFuel => None
  end.

(** One call of [create] or of [destroy] that returns or throws. *)
Inductive pool_step : pool T -> pool T -> Prop :=
| pool_step_create (Args : Type) (ctor : Args -> attempt exn T) args p p' :
    pool_final_state (create ctor args p) = Some p' -> pool_step p p'
| pool_step_destroy ptr p p' :
    pool_final_state (destroy ptr p) = Some p' -> pool_step p p'.

Definition pool_reachable (p : pool T) : Prop := rtc pool_step new_pool p.

(** [create] called once for each argument of [args]: the pointers
    returned. *)
Fixpoint create_each {Args : Type} (ctor : Args -> attempt exn T) (args : list Args)
  : P (list (option Z)) :=
  match args with
  | [] => ret []
  | a :: args' => r <- create ctor a ;; rs <- create_each ctor args' ;; ret (r :: rs)
  end.


End Pool.

End ObjectPool.

(** *** More concrete instances *)

(** The queue [two_pushed] after [try_push(9)]. *)
Definition three_pushed : SPSCQueue Z :=
  mkQueue [Some 7; Some 8; Some 9; None] 3 0.

(** A queue of capacity 4 holding [- 1], with the element type whose
    copy assignment refuses negative values. *)
Definition negative_pushed : SPSCQueue Z :=
  mkQueue [Some (-1); None; None; None] 1 0.

(** The benchmark with capacity 2 and [N = 3] after the two threads have
    taken turns three times. *)
Definition bench_done : bench :=
  mkBench (mkQueue [None; None] 1 1) 3 3 3 2 3 3.

(** A pool of three eight-byte slots after [create(5)]. *)
Definition one_created : ObjectPool.pool Z :=
  ObjectPool.mkPool [Some 5; None; None] [1; 2; -1] 1 2.

(** ** Destructors that throw *)

(** [~T()]: [None] when the destructor returns, [Some e] when it leaves
    by the exception [e], which a destructor declared [noexcept(false)]
    can do. The operations [destroy], [try_pop] and [clear] of the queue
    and [destroy_at] and [destroy] of the pool above are those of an
    element type whose destructor returns; the modules [DtorQueue] and
    [DtorPool] give them for any destructor. *)
Class Destructor (exn T : Type) : Type := {
  destruct : T -> option exn;
}.

(** The destructor of [T] returns: [std::is_nothrow_destructible<T>]. *)
Class NoThrowDestructor {exn T} (D : Destructor exn T) : Prop := {
  destruct_returns x : destruct x = None;
}.

(** A function declared [noexcept]: an exception that reaches its
    boundary calls [std::terminate], which ends the program; that is no
    outcome of the call, and is [Undefined] here. *)
Definition noexcept_ {exn S A} (c : M exn S A) : M exn S A :=
  fun s =>
    match c s with
    | Threw _ _ => Undefined
    | r => r
    end.

Module DtorQueue.

Section Queue.
Context {exn T : Type} {E : Element exn T} {D : Destructor exn T}.
Variable CAP : Z.

Local Open Scope queue_scope.
Local Abbreviation queue := (SPSCQueue T).
Local Abbreviation Q := (M exn queue).

(** [p->~T()]: the lifetime of the object ends when its destructor is
    entered, whether the destructor returns or throws. *)
Definition destroy (p : Z) : Q unit :=
  fun q =>
    match buf_ q !! Z.to_nat p with
    | Some (Some x) =>
        let q' := mkQueue (<[Z.to_nat p := None]> (buf_ q)) (head_ q) (tail_ q) in
        match destruct x with
        | None => Returned tt q'
        | Some e => Threw e q'
        end
    | _ => Undefined
    end.

(** [bool try_pop(T &out)] *)
Definition try_pop (out : T) : Q (bool * T) :=
  tail <- load_tail ;;
  head <- load_head ;;
  if tail =? head then ret (false, out)
  else
    p <- elem_ptr CAP tail ;;
    x <- deref p ;;
    out' <- eval (copy_assign out x) ;;
    destroy p ;;
    store_tail (Z.land (size_t_wrap (tail + 1)) (MASK CAP)) ;;
    ret (true, out').

(** The loop of [clear]. *)
Fixpoint clear_loop (fuel : nat) (tail head : Z) : Q (Z * list (Z * T)) :=
  if tail =? head then ret (tail, [])
  else
    match fuel with
    | O => fun _ => OutOfFuel
    | S fuel' =>
        p <- elem_ptr CAP tail ;;
        x <- deref p ;;
        destroy p ;;
        r <- clear_loop fuel' (Z.land (size_t_wrap (tail + 1)) (MASK CAP)) head ;;
        ret (r.1, (p, x) :: r.2)
    end.

(** [void clear() noexcept] *)
Definition clear (fuel : nat) : Q (list (Z * T)) :=
  noexcept_
    (tail <- load_tail ;;
     head <- load_head ;;
     r <- clear_loop fuel tail head ;;
     store_tail r.1 ;;
     ret r.2).

(** [~SPSCQueue() { clear(); }] *)
Definition destructor (fuel : nat) : Q (list (Z * T)) := clear fuel.

(** One producer or consumer call, whatever its arguments and result. *)
Inductive dtor_step : queue -> queue -> Prop :=
| dtor_step_push v q q' :
    final_state (try_push CAP v q) = Some q' -> dtor_step q q'
| dtor_step_push_move v q q' :
    final_state (try_push_move CAP v q) = Some q' -> dtor_step q q'
| dtor_step_emplace (Args : Type) (ctor : Args -> attempt exn T) args q q' :
    final_state (try_emplace CAP ctor args q) = Some q' -> dtor_step q q'
| dtor_step_pop out q q' :
    final_state (try_pop out q) = Some q' -> dtor_step q q'.

(** The states a single thread reaches from a new queue. *)
Definition dtor_reachable (q : queue) : Prop := rtc dtor_step (init CAP) q.

(** The observation of a pop made with the destructor of [T]. *)
Fixpoint dtor_run (ops : list (op (T:=T))) (h : history (T:=T)) (q : queue)
  : option (history (T:=T) * queue) :=
  match ops with
  | [] => Some (h, q)
  | o :: ops' =>
      let r :=
        match o with
        | Push v => record_push v (try_push CAP v q) h
        | PushMove v => record_push v (try_push_move CAP v q) h
        | Pop out => record_pop (try_pop out q) h
        end in
      match r with
      | Some (h', q') => dtor_run ops' h' q'
      | None => None
      end
  end.

End Queue.

End DtorQueue.

Module DtorPool.

Section Pool.
Context {exn T : Type} {D : Destructor exn T}.
Variables N slot_size : Z.

Local Open Scope queue_scope.
Local Abbreviation P := (M exn (ObjectPool.pool T)).

(** [p->~T()] *)
Definition destroy_at (pc : Z) : P unit :=
  fun p =>
    if (0 <=? pc) && (pc mod slot_size =? 0) then
      match ObjectPool._buf p !! Z.to_nat (pc / slot_size) with
      | Some (Some x) =>
          let p' :=
            ObjectPool.mkPool (<[Z.to_nat (pc / slot_size) := None]> (ObjectPool._buf p))
              (ObjectPool._next_free p) (ObjectPool._head p) (ObjectPool._free_count p) in
          match destruct x with
          | None => Returned tt p'
          | Some e => Threw e p'
          end
      | _ => Undefined
      end
    else Undefined.

(** [void destroy(T *p) noexcept(std::is_nothrow_destructible<T>::value)]:
    for a [T] whose destructor can throw the function is not
    [noexcept], and the exception leaves it before [release_index]. *)
Definition destroy (p : option Z) : P unit :=
  match p with
  | None => ObjectPool.assert false
  | Some pc =>
      index <- ObjectPool.index_from_ptr N slot_size pc ;;
      ObjectPool.assert ((0 <=? index) && (index <? ObjectPool.int_cast N)) ;;
      destroy_at pc ;;
      ObjectPool.release_index N index
  end.



End Pool.

End DtorPool.

(** An element type whose destructor throws on a negative value, and one
    whose destructor returns. *)
Definition throwing_destructor : Destructor unit Z := {|
  destruct x := if x <? 0 then Some tt else None;
|}.

Definition quiet_destructor : Destructor unit Z := {|
  destruct _ := None;
|}.

(** ** Index arithmetic *)

Section Arithmetic.
Variable CAP : Z.
Hypothesis CAP_size_t : CAP < 2 ^ SIZE_BITS.
Hypothesis CAP_valid : valid_capacity CAP = true.

Lemma CAP_ge_2 : 2 <= CAP.
Proof using CAP_valid.
  unfold valid_capacity in CAP_valid.
  apply andb_prop in CAP_valid as [H _]. lia.
Qed.

Lemma MASK_eq : MASK CAP = CAP - 1.
Proof using CAP_size_t CAP_valid.
  pose proof CAP_ge_2. unfold MASK, size_t_wrap.
  apply Z.mod_small. lia.
Qed.

(** A number [x >= 2] with [x & (x - 1) = 0] is a power of two. *)
Lemma CAP_pow2 : CAP = 2 ^ Z.log2 CAP.
Proof using CAP_size_t CAP_valid.
  pose proof CAP_ge_2 as Hge. pose proof MASK_eq as Hm. unfold MASK in Hm.
  unfold valid_capacity in CAP_valid.
  apply andb_prop in CAP_valid as [_ Hland].
  apply Z.eqb_eq in Hland. rewrite Hm in Hland.
  destruct (Z.log2_spec CAP) as [Hlo Hhi]; [lia|].
  destruct (Z.eq_dec CAP (2 ^ Z.log2 CAP)) as [|Hne]; [assumption|exfalso].
  assert (Hlog : Z.log2 (CAP - 1) = Z.log2 CAP).
  { apply Z.log2_unique; [apply Z.log2_nonneg|lia]. }
  assert (Hb1 : Z.testbit CAP (Z.log2 CAP) = true) by (apply Z.bit_log2; lia).
  assert (Hb2 : Z.testbit (CAP - 1) (Z.log2 CAP) = true).
  { rewrite <- Hlog. apply Z.bit_log2. lia. }
  assert (Hb : Z.testbit (Z.land CAP (CAP - 1)) (Z.log2 CAP) = true).
  { rewrite Z.land_spec, Hb1, Hb2. reflexivity. }
  rewrite Hland, Z.bits_0 in Hb. discriminate.
Qed.

(** Masking with [MASK] is reduction modulo [CAP]. *)
Lemma land_MASK x : Z.land x (MASK CAP) = x mod CAP.
Proof using CAP_size_t CAP_valid.
  rewrite MASK_eq.
  replace (CAP - 1) with (Z.ones (Z.log2 CAP))
    by (rewrite Z.ones_equiv, <- CAP_pow2; lia).
  rewrite Z.land_ones by apply Z.log2_nonneg.
  rewrite <- CAP_pow2. reflexivity.
Qed.

(** The ring successor [(i + 1) & MASK] of an index below [CAP]. *)
Lemma next_index i :
  0 <= i < CAP ->
  Z.land (size_t_wrap (i + 1)) (MASK CAP) = (i + 1) mod CAP.
Proof using CAP_size_t CAP_valid.
  intros Hi. rewrite land_MASK. unfold size_t_wrap.
  rewrite (Z.mod_small (i + 1)) by lia. reflexivity.
Qed.

Lemma next_index_cases i :
  0 <= i < CAP ->
  (i + 1) mod CAP = if i + 1 =? CAP then 0 else i + 1.
Proof using CAP_valid.
  intros Hi. pose proof CAP_ge_2. destruct (Z.eqb_spec (i + 1) CAP) as [->|Hne].
  - apply Z.mod_same. lia.
  - apply Z.mod_small. lia.
Qed.

Lemma slot_range t k : 0 <= slot CAP t k < CAP.
Proof using CAP_valid. pose proof CAP_ge_2. apply Z.mod_pos_bound. lia. Qed.

Lemma slot_0 t : 0 <= t < CAP -> slot CAP t 0 = t.
Proof. intros. unfold slot. rewrite Z.add_0_r. apply Z.mod_small. lia. Qed.

Lemma slot_succ t k : slot CAP ((t + 1) mod CAP) k = slot CAP t (S k).
Proof.
  unfold slot. rewrite Z.add_mod_idemp_l by (pose proof CAP_ge_2; lia).
  f_equal. lia.
Qed.

Lemma slot_next t k : (slot CAP t k + 1) mod CAP = slot CAP t (S k).
Proof.
  unfold slot. rewrite Z.add_mod_idemp_l by (pose proof CAP_ge_2; lia).
  f_equal. lia.
Qed.

Lemma slot_inj t j k :
  Z.of_nat j < CAP -> Z.of_nat k < CAP -> slot CAP t j = slot CAP t k -> j = k.
Proof using CAP_valid.
  unfold slot. intros Hj Hk Heq. pose proof CAP_ge_2.
  assert (Hd : (Z.of_nat j - Z.of_nat k) mod CAP = 0).
  { replace (Z.of_nat j - Z.of_nat k) with ((t + Z.of_nat j) - (t + Z.of_nat k)) by lia.
    rewrite Zminus_mod, Heq, Z.sub_diag. apply Z.mod_0_l. lia. }
  apply Z.mod_divide in Hd; [|lia]. destruct Hd as [c Hc].
  assert (c = 0) by nia. lia.
Qed.

Lemma slot_full t : slot CAP t (Z.to_nat CAP) = t mod CAP.
Proof using CAP_valid.
  unfold slot. pose proof CAP_ge_2. rewrite Z2Nat.id by lia.
  rewrite <- (Z.mul_1_l CAP) at 1. apply Z.mod_add. lia.
Qed.

End Arithmetic.

(** ** The abstract contents of a queue *)

Section Properties.
Context {exn T : Type} {E : Element exn T}.
Variable CAP : Z.
Hypothesis CAP_size_t : CAP < 2 ^ SIZE_BITS.
Hypothesis CAP_valid : valid_capacity CAP = true.

Local Abbreviation queue := (SPSCQueue T).
Implicit Types (b : list (option T)) (q : SPSCQueue T) (l : list T) (x v out : T).

Lemma Rep_init : Rep (T:=T) CAP (init CAP) [].
Proof using CAP_valid.
  pose proof (CAP_ge_2 CAP CAP_valid).
  split; simpl.
  - apply length_replicate.
  - lia.
  - lia.
  - symmetry. apply slot_0. lia.
  - intros k Hk. pose proof (slot_range CAP CAP_valid 0 k).
    rewrite lookup_replicate_2 by lia. reflexivity.
Qed.

Lemma Rep_head_range b t h l : Rep_at CAP b t h l -> 0 <= h < CAP.
Proof using CAP_valid. intros [_ _ _ -> _]. apply slot_range; assumption. Qed.

(** The successor of [h] is [t] exactly when [CAP - 1] elements are
    stored. *)
Lemma Rep_next_is_tail b t h l :
  Rep_at CAP b t h l ->
  (h + 1) mod CAP = t <-> Z.of_nat (length l) = CAP - 1.
Proof using CAP_valid.
  intros [_ Ht Hn -> _]. rewrite slot_next by assumption.
  pose proof (CAP_ge_2 CAP CAP_valid). split.
  - intros Heq.
    destruct (Z.eq_dec (Z.of_nat (length l)) (CAP - 1)) as [|Hne]; [assumption|exfalso].
    rewrite <- (slot_0 CAP t Ht) in Heq at 2.
    apply slot_inj in Heq; [discriminate|assumption|lia|lia].
  - intros Heq. replace (S (length l)) with (Z.to_nat CAP) by lia.
    rewrite slot_full by assumption. apply Z.mod_small. lia.
Qed.

Lemma Rep_tail_is_head b t h l :
  Rep_at CAP b t h l -> t = h <-> l = [].
Proof using CAP_valid.
  intros [_ Ht Hn -> _]. pose proof (CAP_ge_2 CAP CAP_valid). split.
  - intros Heq. rewrite <- (slot_0 CAP t Ht) in Heq at 1.
    apply slot_inj in Heq; [|assumption|lia|lia].
    destruct l; [reflexivity|discriminate].
  - intros ->. simpl. symmetry. apply slot_0. assumption.
Qed.

Lemma Rep_full q l : Rep CAP q l -> full CAP q = (Z.of_nat (length l) =? CAP - 1).
Proof using CAP_size_t CAP_valid.
  intros H. unfold full.
  rewrite (next_index CAP CAP_size_t CAP_valid) by (eapply Rep_head_range; exact H).
  pose proof (Rep_next_is_tail _ _ _ _ H).
  destruct (Z.eqb_spec ((head_ q + 1) mod CAP) (tail_ q)),
    (Z.eqb_spec (Z.of_nat (length l)) (CAP - 1)); tauto.
Qed.

Lemma Rep_empty q l : Rep CAP q l -> empty q = (Z.of_nat (length l) =? 0).
Proof using CAP_valid.
  intros H. unfold empty. pose proof (Rep_tail_is_head _ _ _ _ H) as Hiff.
  destruct (Z.eqb_spec (tail_ q) (head_ q)), (Z.eqb_spec (Z.of_nat (length l)) 0);
    try reflexivity; exfalso.
  - destruct Hiff as [Hl _]. rewrite Hl in * by assumption. simpl in *. lia.
  - destruct l; [|simpl in *; lia]. tauto.
Qed.

(** A state holds at most one sequence. *)
Lemma Rep_at_unique b t h l l' : Rep_at CAP b t h l -> Rep_at CAP b t h l' -> l = l'.
Proof using CAP_valid.
  intros [_ _ Hn _ Hs] [_ _ Hn' _ Hs'].
  apply list_eq. intros k.
  destruct (Z_lt_dec (Z.of_nat k) CAP) as [Hk|Hk].
  - specialize (Hs k Hk). specialize (Hs' k Hk). congruence.
  - rewrite !lookup_ge_None_2 by lia. reflexivity.
Qed.

(** Constructing [x] in the slot CAP at [h] appends it. *)
Lemma Rep_at_push b t h l x :
  Rep_at CAP b t h l -> Z.of_nat (length l) <> CAP - 1 ->
  Rep_at CAP (<[Z.to_nat h := Some x]> b) t ((h + 1) mod CAP) (l ++ [x]).
Proof using CAP_valid.
  intros [Hb Ht Hn -> Hs] Hnf. split.
  - rewrite length_insert. assumption.
  - assumption.
  - rewrite length_app. simpl. lia.
  - rewrite slot_next by assumption. rewrite length_app. simpl.
    f_equal. lia.
  - intros k Hk.
    pose proof (slot_range CAP CAP_valid t k).
    pose proof (slot_range CAP CAP_valid t (length l)).
    destruct (Nat.eq_dec k (length l)) as [->|Hne].
    + rewrite list_lookup_insert_eq by lia.
      rewrite list_lookup_middle by reflexivity. reflexivity.
    + rewrite list_lookup_insert_ne.
      2:{ intros Heq. apply Z2Nat.inj in Heq; [|lia|lia].
          apply slot_inj in Heq; [lia|assumption|lia|lia]. }
      rewrite Hs by assumption. f_equal.
      destruct (Nat.lt_ge_cases k (length l)).
      * rewrite lookup_app_l by assumption. reflexivity.
      * rewrite !lookup_ge_None_2; [reflexivity| |lia].
        rewrite length_app. simpl. lia.
Qed.

(** Destroying the object in the slot CAP at [t] removes the oldest
    element. *)
Lemma Rep_at_pop b t h l x :
  Rep_at CAP b t h (x :: l) ->
  Rep_at CAP (<[Z.to_nat t := None]> b) ((t + 1) mod CAP) h l.
Proof using CAP_valid.
  intros [Hb Ht Hn -> Hs]. simpl in Hn.
  pose proof (CAP_ge_2 CAP CAP_valid). split.
  - rewrite length_insert. assumption.
  - apply Z.mod_pos_bound. lia.
  - lia.
  - rewrite slot_succ by assumption. reflexivity.
  - intros k Hk. rewrite slot_succ by assumption.
    pose proof (slot_range CAP CAP_valid t (S k)).
    destruct (Z.eq_dec (Z.of_nat (S k)) CAP) as [Heq|Hne].
    + replace (S k) with (Z.to_nat CAP) by lia.
      rewrite slot_full by assumption. rewrite Z.mod_small by lia.
      rewrite list_lookup_insert_eq by lia.
      rewrite lookup_ge_None_2 by lia. reflexivity.
    + rewrite list_lookup_insert_ne.
      2:{ intros Heq. apply Z2Nat.inj in Heq; [|lia|lia].
          rewrite <- (slot_0 CAP t Ht) in Heq at 1.
          apply slot_inj in Heq; [discriminate|assumption|lia|lia]. }
      rewrite Hs by lia. reflexivity.
Qed.

Lemma Rep_at_front b t h l x :
  Rep_at CAP b t h (x :: l) -> b !! Z.to_nat t = Some (Some x).
Proof using CAP_valid.
  intros [Hb Ht Hn _ Hs]. pose proof (CAP_ge_2 CAP CAP_valid).
  specialize (Hs 0%nat ltac:(lia)). rewrite slot_0 in Hs by assumption.
  exact Hs.
Qed.

(** *** The operations, case by case *)

Lemma well_formed_in_array q :
  well_formed CAP q -> in_array CAP (head_ q) q = true /\ in_array CAP (tail_ q) q = true.
Proof.
  intros (Hb & Hh & Ht). unfold in_array. rewrite Hb.
  split; repeat (apply andb_true_intro; split);
    try (apply Z.leb_le; lia); try (apply Z.ltb_lt; lia); apply Nat.ltb_lt; lia.
Qed.

Lemma Rep_well_formed q l : Rep CAP q l -> well_formed CAP q.
Proof using CAP_valid.
  intros H. split; [apply H|]. split; [eapply Rep_head_range; exact H|apply H].
Qed.

Lemma try_emplace_cases {Args} (ctor : Args -> attempt exn T) args q :
  try_emplace CAP ctor args q =
  if full CAP q then Returned false q
  else if in_array CAP (head_ q) q then
    match ctor args with
    | Done x =>
        Returned true
          (mkQueue (<[Z.to_nat (head_ q) := Some x]> (buf_ q))
             (Z.land (size_t_wrap (head_ q + 1)) (MASK CAP)) (tail_ q))
    | Raise e => Threw e q
    end
  else Undefined.
Proof.
  unfold try_emplace, full, bind, load_head, load_tail, ret. simpl.
  destruct (_ =? tail_ q); [reflexivity|].
  unfold elem_addr, in_array. destruct (_ && _ && _); [|reflexivity].
  unfold placement_new. destruct (ctor args); reflexivity.
Qed.

Lemma try_push_emplace v : try_push CAP v = try_emplace CAP copy_construct v.
Proof. reflexivity. Qed.

Lemma try_push_move_emplace v : try_push_move CAP v = try_emplace CAP move_construct v.
Proof. reflexivity. Qed.

Lemma try_pop_cases out q :
  try_pop CAP out q =
  if empty q then Returned (false, out) q
  else if in_array CAP (tail_ q) q then
    match buf_ q !! Z.to_nat (tail_ q) with
    | Some (Some x) =>
        match copy_assign out x with
        | Done o =>
            Returned (true, o)
              (mkQueue (<[Z.to_nat (tail_ q) := None]> (buf_ q)) (head_ q)
                 (Z.land (size_t_wrap (tail_ q + 1)) (MASK CAP)))
        | Raise e => Threw e q
        end
    | _ => Undefined
    end
  else Undefined.
Proof.
  unfold try_pop, empty, bind, load_head, load_tail, ret. simpl.
  destruct (tail_ q =? head_ q); [reflexivity|].
  unfold elem_ptr, elem_addr, in_array. destruct (_ && _ && _); [|reflexivity].
  unfold deref. destruct (buf_ q !! Z.to_nat (tail_ q)) as [[x|]|] eqn:Hx; try reflexivity.
  unfold eval. destruct (copy_assign out x); [|reflexivity].
  unfold destroy. simpl. rewrite Hx. reflexivity.
Qed.

(** On a state holding [l], a producer operation whose constructor call
    is [ctor args]. *)
Lemma try_emplace_Rep {Args} (ctor : Args -> attempt exn T) args q l :
  Rep CAP q l ->
  if Z.of_nat (length l) =? CAP - 1 then
    try_emplace CAP ctor args q = Returned false q
  else
    match ctor args with
    | Done x =>
        exists q', try_emplace CAP ctor args q = Returned true q' /\
                   Rep CAP q' (l ++ [x]) /\
                   buf_ q' = <[Z.to_nat (head_ q) := Some x]> (buf_ q) /\
                   head_ q' = (head_ q + 1) mod CAP /\ tail_ q' = tail_ q
    | Raise e => try_emplace CAP ctor args q = Threw e q
    end.
Proof using CAP_size_t CAP_valid.
  intros H. rewrite try_emplace_cases, (Rep_full q l H).
  destruct (Z.eqb_spec (Z.of_nat (length l)) (CAP - 1)) as [|Hnf]; [reflexivity|].
  destruct (well_formed_in_array q (Rep_well_formed q l H)) as [-> _].
  destruct (ctor args) as [x|e]; [|reflexivity].
  rewrite (next_index CAP CAP_size_t CAP_valid) by (eapply Rep_head_range; exact H).
  eexists. split; [reflexivity|]. split; [|auto].
  apply Rep_at_push; assumption.
Qed.

(** On a state holding [l], the consumer operation. *)
Lemma try_pop_Rep out q l :
  Rep CAP q l ->
  match l with
  | [] => try_pop CAP out q = Returned (false, out) q
  | x :: l' =>
      match copy_assign out x with
      | Done o =>
          exists q', try_pop CAP out q = Returned (true, o) q' /\
                     Rep CAP q' l' /\
                     buf_ q' = <[Z.to_nat (tail_ q) := None]> (buf_ q) /\
                     head_ q' = head_ q /\ tail_ q' = (tail_ q + 1) mod CAP
      | Raise e => try_pop CAP out q = Threw e q
      end
  end.
Proof using CAP_size_t CAP_valid.
  intros H. rewrite try_pop_cases, (Rep_empty q l H).
  destruct l as [|x l']; [reflexivity|]. simpl length.
  replace (Z.of_nat (S (length l')) =? 0) with false by (symmetry; apply Z.eqb_neq; lia).
  destruct (well_formed_in_array q (Rep_well_formed q _ H)) as [_ ->].
  rewrite (Rep_at_front _ _ _ _ _ H).
  destruct (copy_assign out x) as [o|e]; [|reflexivity].
  rewrite (next_index CAP CAP_size_t CAP_valid) by apply H.
  eexists. split; [reflexivity|]. split; [|auto].
  apply (Rep_at_pop (buf_ q) (tail_ q) (head_ q) l' x H).
Qed.

(** *** The teardown loop *)

Lemma drain_trace_cons t x l :
  0 <= t < CAP ->
  drain_trace CAP t (x :: l) = (t, x) :: drain_trace CAP ((t + 1) mod CAP) l.
Proof.
  intros Ht. unfold drain_trace. rewrite imap_cons. f_equal.
  - f_equal. apply slot_0. assumption.
  - apply imap_ext. intros k y _. simpl. f_equal. symmetry. apply slot_succ. assumption.
Qed.

Lemma clear_loop_Rep l : forall fuel t q,
  Rep_at CAP (buf_ q) t (head_ q) l ->
  (length l <= fuel)%nat ->
  exists b,
    clear_loop (exn:=exn) CAP fuel t (head_ q) q =
      Returned (head_ q, drain_trace CAP t l) (mkQueue b (head_ q) (tail_ q)) /\
    Rep_at CAP b (head_ q) (head_ q) [].
Proof using CAP_size_t CAP_valid.
  induction l as [|x l IH]; intros fuel t q H Hfuel.
  - assert (t = head_ q) as -> by (apply (Rep_tail_is_head _ _ _ _ H); reflexivity).
    exists (buf_ q). split; [|assumption].
    destruct fuel; simpl; rewrite Z.eqb_refl; destruct q; reflexivity.
  - assert (Hne : t <> head_ q).
    { intros Heq. apply (Rep_tail_is_head _ _ _ _ H) in Heq. discriminate. }
    destruct fuel as [|fuel]; [simpl in Hfuel; lia|].
    pose proof (rep_tail _ _ _ _ _ H) as Ht.
    pose proof (rep_buf _ _ _ _ _ H) as Hb.
    simpl clear_loop. apply Z.eqb_neq in Hne. rewrite Hne.
    unfold bind at 1. unfold elem_ptr, elem_addr.
    replace ((0 <=? t) && (t <? CAP) && (Z.to_nat t <? length (buf_ q))%nat) with true.
    2:{ symmetry. rewrite Hb. repeat (apply andb_true_intro; split);
        [apply Z.leb_le; lia|apply Z.ltb_lt; lia|apply Nat.ltb_lt; lia]. }
    unfold bind at 1. unfold deref. rewrite (Rep_at_front _ _ _ _ _ H).
    unfold bind at 1. unfold destroy. rewrite (Rep_at_front _ _ _ _ _ H).
    rewrite (next_index CAP CAP_size_t CAP_valid) by assumption.
    apply Rep_at_pop in H.
    set (q1 := mkQueue (<[Z.to_nat t := None]> (buf_ q)) (head_ q) (tail_ q)).
    destruct (IH fuel ((t + 1) mod CAP) q1 H ltac:(simpl in Hfuel; lia)) as (b & Hrun & Hb').
    exists b. split; [|exact Hb'].
    unfold bind at 1. simpl head_ in Hrun. rewrite Hrun. unfold ret. simpl.
    rewrite drain_trace_cons by assumption. reflexivity.
Qed.

Lemma clear_Rep q l fuel :
  Rep CAP q l -> (length l <= fuel)%nat ->
  exists q',
    clear (exn:=exn) CAP fuel q = Returned (drain_trace CAP (tail_ q) l) q' /\
    Rep CAP q' [] /\ head_ q' = head_ q /\ tail_ q' = head_ q.
Proof using CAP_size_t CAP_valid.
  intros H Hfuel.
  destruct (clear_loop_Rep l fuel (tail_ q) q H Hfuel) as (b & Hrun & Hb).
  unfold clear, bind, load_tail, load_head. rewrite Hrun. simpl.
  eexists. split; [reflexivity|]. split; [exact Hb|]. split; reflexivity.
Qed.

(** *** Single-threaded executions *)

Lemma step_emplace_Rep {Args} (ctor : Args -> attempt exn T) args q q' :
  final_state (try_emplace CAP ctor args q) = Some q' ->
  (exists l, Rep CAP q l) -> exists l', Rep CAP q' l'.
Proof using CAP_size_t CAP_valid.
  intros Hf [l H]. pose proof (try_emplace_Rep ctor args q l H) as Hc.
  destruct (_ =? _).
  - rewrite Hc in Hf. injection Hf as <-. eauto.
  - destruct (ctor args) as [x|e].
    + destruct Hc as (q1 & Hc & H1 & _). rewrite Hc in Hf. injection Hf as <-. eauto.
    + rewrite Hc in Hf. injection Hf as <-. eauto.
Qed.

Lemma step_Rep q q' : step CAP q q' -> (exists l, Rep CAP q l) -> exists l', Rep CAP q' l'.
Proof using CAP_size_t CAP_valid.
  intros Hs HR. destruct Hs as [v q q' Hf|v q q' Hf|Args ctor args q q' Hf|out q q' Hf].
  - eapply step_emplace_Rep; [|exact HR]. rewrite <- try_push_emplace. exact Hf.
  - eapply step_emplace_Rep; [|exact HR]. rewrite <- try_push_move_emplace. exact Hf.
  - eapply step_emplace_Rep; eassumption.
  - destruct HR as [l H]. pose proof (try_pop_Rep out q l H) as Hc.
    destruct l as [|x l].
    + rewrite Hc in Hf. injection Hf as <-. eauto.
    + destruct (copy_assign out x) as [o|e].
      * destruct Hc as (q1 & Hc & H1 & _). rewrite Hc in Hf. injection Hf as <-. eauto.
      * rewrite Hc in Hf. injection Hf as <-. eauto.
Qed.

(** Every reachable state holds a sequence of fewer than [CAP]
    elements in consecutive ring slots. *)
Lemma reachable_Rep q : reachable CAP q -> exists l, Rep CAP q l.
Proof using CAP_size_t CAP_valid.
  unfold reachable. intros Hr.
  apply (rtc_ind_r (R:=step CAP) (fun q => exists l, Rep CAP q l) (init CAP)); [| |exact Hr].
  - exists []. apply Rep_init.
  - intros y z _ Hs IH. eapply step_Rep; eassumption.
Qed.

(** *** Runs of calls *)

Lemma push_each_Rep `{!NoThrow E} (vs : list T) : forall q l,
  Rep CAP q l ->
  Z.of_nat (length l) + Z.of_nat (length vs) <= CAP - 1 ->
  exists ws q',
    push_each CAP vs q = Returned (replicate (length vs) true) q' /\
    Rep CAP q' (l ++ ws) /\ length ws = length vs.
Proof using CAP_size_t CAP_valid.
  induction vs as [|v vs IH]; intros q l H Hroom.
  - exists [], q. rewrite app_nil_r. auto.
  - simpl in Hroom. simpl push_each. unfold bind at 1.
    rewrite try_push_emplace.
    pose proof (try_emplace_Rep copy_construct v q l H) as Hc.
    replace (Z.of_nat (length l) =? CAP - 1) with false in Hc
      by (symmetry; apply Z.eqb_neq; lia).
    destruct (copy_construct_nothrow v) as [w Hw]. rewrite Hw in Hc.
    destruct Hc as (q1 & -> & H1 & _).
    destruct (IH q1 (l ++ [w]) H1) as (ws & q2 & Hrun & H2 & Hlen).
    { rewrite length_app. simpl. lia. }
    exists (w :: ws), q2. unfold bind. rewrite Hrun. simpl.
    rewrite <- app_assoc in H2. auto.
Qed.

Lemma pop_n_Rep `{!NoThrow E} (n : nat) : forall q l out,
  Rep CAP q l -> (n <= length l)%nat ->
  exists rs q',
    pop_n CAP n out q = Returned rs q' /\
    rs.*1 = replicate n true /\ Rep CAP q' (drop n l).
Proof using CAP_size_t CAP_valid.
  induction n as [|n IH]; intros q l out H Hn.
  - exists [], q. rewrite drop_0. auto.
  - destruct l as [|x l]; [simpl in Hn; lia|]. simpl in Hn.
    simpl pop_n. unfold bind at 1.
    pose proof (try_pop_Rep out q _ H) as Hc. simpl in Hc.
    destruct (copy_assign_nothrow out x) as [o Ho]. rewrite Ho in Hc.
    destruct Hc as (q1 & -> & H1 & _).
    destruct (IH q1 l o H1 ltac:(lia)) as (rs & q2 & Hrun & Hrs & H2).
    exists ((true, o) :: rs), q2. unfold bind. simpl. rewrite Hrun.
    split; [reflexivity|]. split; [|exact H2].
    f_equal. exact Hrs.
Qed.

Lemma record_push_Rep `{!Faithful E} (ctor : T -> attempt exn T) v h q l :
  (forall w, ctor v = Done w -> w = v) ->
  Rep CAP q l -> pushed h = popped h ++ l ->
  exists h' q' l',
    record_push v (try_emplace CAP ctor v q) h = Some (h', q') /\
    Rep CAP q' l' /\ pushed h' = popped h' ++ l'.
Proof using CAP_size_t CAP_valid.
  intros Hctor H Hh.
  pose proof (try_emplace_Rep ctor v q l H) as Hc.
  destruct (_ =? _).
  - rewrite Hc. simpl. exists h, q, l. auto.
  - destruct (ctor v) as [w|e] eqn:Hw.
    + destruct Hc as (q1 & -> & H1 & _). rewrite (Hctor w eq_refl) in H1.
      simpl. do 3 eexists. split; [reflexivity|]. split; [exact H1|].
      simpl. rewrite Hh, app_assoc. reflexivity.
    + rewrite Hc. simpl. exists h, q, l. auto.
Qed.

Lemma record_pop_Rep `{!Faithful E} out h q l :
  Rep CAP q l -> pushed h = popped h ++ l ->
  exists h' q' l',
    record_pop (try_pop CAP out q) h = Some (h', q') /\
    Rep CAP q' l' /\ pushed h' = popped h' ++ l'.
Proof using CAP_size_t CAP_valid.
  intros H Hh.
  pose proof (try_pop_Rep out q l H) as Hc.
  destruct l as [|x l].
  - rewrite Hc. simpl. exists h, q, []. auto.
  - destruct (copy_assign out x) as [o|e] eqn:Ho.
    + destruct Hc as (q1 & -> & H1 & _).
      apply copy_assign_value in Ho. subst o.
      simpl. do 3 eexists. split; [reflexivity|]. split; [exact H1|].
      simpl. rewrite Hh, <- app_assoc. reflexivity.
    + rewrite Hc. simpl. exists h, q, (x :: l). auto.
Qed.

Lemma run_Rep `{!Faithful E} (ops : list (op (T:=T))) : forall h q l,
  Rep CAP q l -> pushed h = popped h ++ l ->
  exists h' q' l',
    run CAP ops h q = Some (h', q') /\
    Rep CAP q' l' /\ pushed h' = popped h' ++ l'.
Proof using CAP_size_t CAP_valid.
  induction ops as [|o ops IH]; intros h q l H Hh.
  - simpl. exists h, q, l. auto.
  - simpl run.
    assert (exists h1 q1 l1,
               match o with
               | Push v => record_push v (try_push CAP v q) h
               | PushMove v => record_push v (try_push_move CAP v q) h
               | Pop out => record_pop (try_pop CAP out q) h
               end = Some (h1, q1) /\
               Rep CAP q1 l1 /\ pushed h1 = popped h1 ++ l1)
      as (h1 & q1 & l1 & -> & H1 & Hh1).
    { destruct o as [v|v|out].
      - rewrite try_push_emplace.
        eapply record_push_Rep; eauto using copy_construct_value.
      - rewrite try_push_move_emplace.
        eapply record_push_Rep; eauto using move_construct_value.
      - eapply record_pop_Rep; eauto. }
    eapply IH; eassumption.
Qed.

(** C1. FIFO order: every single-threaded sequence of pushes (by copy
    or by move) and pops on a new queue runs to its end, and the values
    the successful pops returned, followed by the elements still in the
    queue, are the values the successful pushes supplied, in the same
    order. So the values popped are an initial segment of the values
    pushed, and all of them once the queue has been emptied. *)
Theorem fifo_order `{!Faithful E} (ops : list (op (T:=T))) :
  exists h q pending,
    run CAP ops (mkHistory [] []) (init CAP) = Some (h, q) /\
    Rep CAP q pending /\
    pushed h = popped h ++ pending /\
    popped h `prefix_of` pushed h /\
    (empty q = true -> popped h = pushed h).
Proof using CAP_size_t CAP_valid.
  pose proof (run_Rep ops (mkHistory [] []) (init CAP) [] Rep_init eq_refl) as Hr.
  destruct Hr as (h & q & l & Hrun & H & Hh).
  exists h, q, l. split; [exact Hrun|]. split; [exact H|]. split; [exact Hh|]. split.
  - exists l. exact Hh.
  - intros He. rewrite (Rep_empty q l H) in He. apply Z.eqb_eq in He.
    destruct l; [|simpl in He; lia]. rewrite Hh, app_nil_r. reflexivity.
Qed.

(** C2. Full/empty boundary: on a new queue of capacity [CAP] whose
    element type does not throw, [CAP - 1] pushes all return [true];
    then every further push returns [false] and [full()] is [true];
    and after [CAP - 1] pops, which all return [true], [empty()] is
    [true]. *)
Theorem full_empty_boundary `{!NoThrow E} (vs : list T) (out : T) :
  Z.of_nat (length vs) = CAP - 1 ->
  exists q1,
    push_each CAP vs (init CAP) = Returned (replicate (length vs) true) q1 /\
    (forall v, try_push CAP v q1 = Returned false q1) /\
    full CAP q1 = true /\
    exists rs q2,
      pop_n CAP (length vs) out q1 = Returned rs q2 /\
      rs.*1 = replicate (length vs) true /\
      empty q2 = true.
Proof using CAP_size_t CAP_valid.
  intros Hlen.
  assert (Hroom : Z.of_nat (length (@nil T)) + Z.of_nat (length vs) <= CAP - 1)
    by (simpl; lia).
  pose proof (push_each_Rep vs (init CAP) [] Rep_init Hroom) as Hr.
  destruct Hr as (ws & q1 & Hrun & H1 & Hws).
  simpl in H1. exists q1. split; [exact Hrun|].
  assert (Hfull : (Z.of_nat (length ws) =? CAP - 1) = true) by (apply Z.eqb_eq; lia).
  split; [|split].
  - intros v. rewrite try_push_emplace.
    pose proof (try_emplace_Rep copy_construct v q1 ws H1) as Hc.
    rewrite Hfull in Hc. exact Hc.
  - rewrite (Rep_full q1 ws H1). exact Hfull.
  - destruct (pop_n_Rep (length vs) q1 ws out H1 ltac:(lia)) as (rs & q2 & Hpop & Hrs & H2).
    exists rs, q2. split; [exact Hpop|]. split; [exact Hrs|].
    rewrite (Rep_empty q2 _ H2). apply Z.eqb_eq.
    rewrite length_drop. lia.
Qed.

(** C3. Full and empty are boolean outcomes. In every state, each
    push overload returns [false] exactly when the queue is full, and
    then leaves the whole state (both indices and every slot) as it
    was; [try_pop] returns [false] exactly when the queue is empty, and
    then leaves the state and the caller's variable as they were. In
    both cases the call returns: it does not throw. *)
Theorem full_and_empty_are_boolean_outcomes q v out :
  full CAP q = (Z.land (size_t_wrap (head_ q + 1)) (MASK CAP) =? tail_ q) /\
  empty q = (tail_ q =? head_ q) /\
  ((exists q', try_push CAP v q = Returned false q') <-> full CAP q = true) /\
  (full CAP q = true -> try_push CAP v q = Returned false q) /\
  ((exists q', try_push_move CAP v q = Returned false q') <-> full CAP q = true) /\
  (full CAP q = true -> try_push_move CAP v q = Returned false q) /\
  ((exists o q', try_pop CAP out q = Returned (false, o) q') <-> empty q = true) /\
  (empty q = true -> try_pop CAP out q = Returned (false, out) q).
Proof.
  split; [reflexivity|]. split; [reflexivity|].
  rewrite try_push_emplace, try_push_move_emplace, !try_emplace_cases, try_pop_cases.
  destruct (full CAP q), (empty q);
    repeat match goal with
      | |- _ /\ _ => split
      | |- _ <-> _ => split
      | |- _ -> _ => intro
      end;
    try reflexivity; try discriminate; eauto;
    repeat match goal with
      | H : exists _, _ |- _ => destruct H
      | H : context [if ?b then _ else _] |- _ => destruct b
      | H : context [match ?c with _ => _ end] |- _ => destruct c
      end; discriminate.
Qed.

(** C6. A constructor that throws leaves the queue as it was. In every
    well-formed state that is not full, when the construction that
    [try_push] (by copy or by move) or [try_emplace] performs throws
    [e], the call leaves by that same exception, and the state after
    it is the state before it: the head index is not advanced and no
    slot has changed. *)
Theorem construction_failure_leaves_queue_unchanged q :
  well_formed CAP q -> full CAP q = false ->
  (forall v e, copy_construct v = Raise e -> try_push CAP v q = Threw e q) /\
  (forall v e, move_construct v = Raise e -> try_push_move CAP v q = Threw e q) /\
  (forall (Args : Type) (ctor : Args -> attempt exn T) args e,
      ctor args = Raise e -> try_emplace CAP ctor args q = Threw e q).
Proof.
  intros Hwf Hnf. destruct (well_formed_in_array q Hwf) as [Hh _].
  assert (Hall : forall (Args : Type) (ctor : Args -> attempt exn T) args e,
             ctor args = Raise e -> try_emplace CAP ctor args q = Threw e q).
  { intros Args ctor args e He. rewrite try_emplace_cases, Hnf, Hh, He. reflexivity. }
  split; [|split].
  - intros v e He. rewrite try_push_emplace. apply Hall. exact He.
  - intros v e He. rewrite try_push_move_emplace. apply Hall. exact He.
  - exact Hall.
Qed.

(** Two producer operations on a well-formed state that is not full
    have the same outcome exactly when their constructor calls have the
    same result. *)
Lemma try_emplace_outcomes_agree {A1 A2 : Type}
    (c1 : A1 -> attempt exn T) a1 (c2 : A2 -> attempt exn T) a2 q :
  well_formed CAP q -> full CAP q = false ->
  try_emplace CAP c1 a1 q = try_emplace CAP c2 a2 q <-> c1 a1 = c2 a2.
Proof.
  intros Hwf Hnf. destruct (well_formed_in_array q Hwf) as [Hin _].
  rewrite !try_emplace_cases, Hnf, Hin. split.
  - destruct (c1 a1) as [x|e], (c2 a2) as [y|e']; intros Heq; try discriminate.
    + injection Heq as Heq.
      assert (Hl : <[Z.to_nat (head_ q) := Some x]> (buf_ q) !! Z.to_nat (head_ q)
                   = <[Z.to_nat (head_ q) := Some y]> (buf_ q) !! Z.to_nat (head_ q))
        by (rewrite Heq; reflexivity).
      unfold in_array in Hin. apply andb_prop in Hin as [_ Hlt]. apply Nat.ltb_lt in Hlt.
      rewrite !list_lookup_insert_eq in Hl by exact Hlt. congruence.
    + congruence.
  - intros ->. reflexivity.
Qed.

(** C9, amended. The three producer operations. In every well-formed
    state: [try_push(const T &)] and [try_push(T &&)] are [try_emplace]
    with the copy and the move constructor; when the queue is full all
    three return [false] and leave the state as it is, whatever the
    constructors of [T] do; when it is not full, each returns [true]
    with the object its own constructor call yields in the slot at
    [head] and [head] advanced, or leaves by the exception of that call
    with the state as it was, so that two of them have the same outcome
    (same boolean or exception, same state) exactly when their
    constructor calls have the same result. *)
Theorem producer_variants_outcomes q v :
  well_formed CAP q ->
  try_push CAP v q = try_emplace CAP copy_construct v q /\
  try_push_move CAP v q = try_emplace CAP move_construct v q /\
  (full CAP q = true ->
   forall (Args : Type) (ctor : Args -> attempt exn T) args,
     try_emplace CAP ctor args q = Returned false q) /\
  (full CAP q = false ->
   (forall (Args : Type) (ctor : Args -> attempt exn T) args,
      try_emplace CAP ctor args q =
      match ctor args with
      | Done x =>
          Returned true
            (mkQueue (<[Z.to_nat (head_ q) := Some x]> (buf_ q))
               (Z.land (size_t_wrap (head_ q + 1)) (MASK CAP)) (tail_ q))
      | Raise e => Threw e q
      end) /\
   (try_push_move CAP v q = try_push CAP v q <-> move_construct v = copy_construct v) /\
   (forall (Args : Type) (ctor : Args -> attempt exn T) args,
      try_emplace CAP ctor args q = try_push CAP v q <-> ctor args = copy_construct v) /\
   (forall (Args : Type) (ctor : Args -> attempt exn T) args,
      try_emplace CAP ctor args q = try_push_move CAP v q <-> ctor args = move_construct v)).
Proof.
  intros Hwf. destruct (well_formed_in_array q Hwf) as [Hin _].
  split; [reflexivity|]. split; [reflexivity|]. split.
  - intros Hf Args ctor args. rewrite try_emplace_cases, Hf. reflexivity.
  - intros Hnf. rewrite try_push_emplace, try_push_move_emplace.
    split; [|split; [|split]].
    + intros Args ctor args. rewrite try_emplace_cases, Hnf, Hin. reflexivity.
    + apply try_emplace_outcomes_agree; assumption.
    + intros Args ctor args. apply try_emplace_outcomes_agree; assumption.
    + intros Args ctor args. apply try_emplace_outcomes_agree; assumption.
Qed.

(** C10. On every state reachable from a new queue by pushes and pops,
    [empty()] and [full()] are not both [true]. *)
Theorem empty_and_full_exclusive q :
  reachable CAP q -> ~ (empty q = true /\ full CAP q = true).
Proof using CAP_size_t CAP_valid.
  intros Hr [He Hf]. destruct (reachable_Rep q Hr) as [l H].
  rewrite (Rep_empty q l H) in He. rewrite (Rep_full q l H) in Hf.
  apply Z.eqb_eq in He, Hf. pose proof (CAP_ge_2 CAP CAP_valid). lia.
Qed.

(** *** Slots and the elements living in them *)

Lemma slot_surj t i :
  0 <= i < CAP -> exists k : nat, Z.of_nat k < CAP /\ slot CAP t k = i.
Proof using CAP_valid.
  intros Hi. pose proof (CAP_ge_2 CAP CAP_valid).
  pose proof (Z.mod_pos_bound (i - t) CAP ltac:(lia)).
  exists (Z.to_nat ((i - t) mod CAP)). split; [lia|].
  unfold slot. rewrite Z2Nat.id by lia.
  rewrite Z.add_mod_idemp_r by lia.
  replace (t + (i - t)) with i by lia. apply Z.mod_small. assumption.
Qed.

(** The slots of a state holding [l]: an object lives in slot [i]
    exactly when [i] is one of the [length l] ring slots from the read
    cursor on. *)
Lemma Rep_live b t h l i x :
  Rep_at CAP b t h l -> 0 <= i < CAP ->
  b !! Z.to_nat i = Some (Some x) <->
  exists k : nat, l !! k = Some x /\ i = slot CAP t k.
Proof using CAP_valid.
  intros H Hi. split.
  - intros Hb. destruct (slot_surj t i Hi) as (k & Hk & <-).
    exists k. split; [|reflexivity].
    rewrite (rep_slots _ _ _ _ _ H k Hk) in Hb. congruence.
  - intros (k & Hk & ->). pose proof (rep_count _ _ _ _ _ H).
    apply lookup_lt_Some in Hk as Hlt.
    rewrite (rep_slots _ _ _ _ _ H k) by lia. congruence.
Qed.

Lemma Rep_vacant b t h i :
  Rep_at CAP b t h [] -> 0 <= i < CAP -> b !! Z.to_nat i = Some None.
Proof using CAP_valid.
  intros H Hi. destruct (slot_surj t i Hi) as (k & Hk & <-).
  apply (rep_slots _ _ _ _ _ H k Hk).
Qed.

Lemma drain_trace_lookup t l (k : nat) :
  drain_trace CAP t l !! k = (fun x => (slot CAP t k, x)) <$> l !! k.
Proof. unfold drain_trace. rewrite list_lookup_imap. reflexivity. Qed.

Lemma drain_trace_slots t l (k : nat) :
  (drain_trace CAP t l).*1 !! k =
  if decide (k < length l)%nat then Some (slot CAP t k) else None.
Proof.
  rewrite list_lookup_fmap, drain_trace_lookup.
  destruct (decide (k < length l)%nat) as [Hlt|Hge].
  - destruct (lookup_lt_is_Some_2 l k Hlt) as [x ->]. reflexivity.
  - rewrite lookup_ge_None_2 by lia. reflexivity.
Qed.

Lemma drain_trace_NoDup t l :
  Z.of_nat (length l) < CAP -> NoDup (drain_trace CAP t l).*1.
Proof using CAP_valid.
  intros Hn. apply NoDup_alt. intros j k i Hj Hk.
  rewrite drain_trace_slots in Hj, Hk.
  destruct (decide (j < length l)%nat); [|discriminate].
  destruct (decide (k < length l)%nat); [|discriminate].
  apply (slot_inj CAP CAP_valid t); [lia|lia|congruence].
Qed.

(** C5. [clear()] drains the queue. On every reachable state, with [l]
    the sequence the queue holds: given an iteration budget of at least
    [length l], [clear()] returns; its destructor calls are, in order,
    on the slots [tail], [tail + 1], ... (modulo [CAP]), one call for
    each element of [l], no slot twice; the slots destroyed are exactly
    the slots in which an object lived; afterwards no slot holds an
    object, [head] is unchanged, [tail] equals [head] and the queue is
    empty. The destructor is this same call. *)
Theorem clear_drains_live_range q :
  reachable CAP q ->
  exists l,
    Rep CAP q l /\
    forall fuel, (length l <= fuel)%nat ->
    exists trace q',
      clear (exn:=exn) CAP fuel q = Returned trace q' /\
      destructor (exn:=exn) CAP fuel q = Returned trace q' /\
      trace = drain_trace CAP (tail_ q) l /\
      (forall k : nat, trace.*1 !! k =
         if decide (k < length l)%nat
         then Some ((tail_ q + Z.of_nat k) mod CAP) else None) /\
      NoDup trace.*1 /\
      (forall i x, 0 <= i < CAP ->
         (i, x) ∈ trace <-> buf_ q !! Z.to_nat i = Some (Some x)) /\
      (forall i, 0 <= i < CAP -> buf_ q' !! Z.to_nat i = Some None) /\
      head_ q' = head_ q /\ tail_ q' = head_ q /\ empty q' = true.
Proof using CAP_size_t CAP_valid.
  intros Hr. destruct (reachable_Rep q Hr) as [l H].
  exists l. split; [exact H|]. intros fuel Hfuel.
  destruct (clear_Rep q l fuel H Hfuel) as (q' & Hclear & H' & Hh & Ht).
  exists (drain_trace CAP (tail_ q) l), q'.
  split; [exact Hclear|]. split; [exact Hclear|]. split; [reflexivity|].
  split; [|split; [|split; [|split; [|split; [|split]]]]].
  - intros k. apply drain_trace_slots.
  - apply drain_trace_NoDup. apply H.
  - intros i x Hi. rewrite (Rep_live _ _ _ _ i x H Hi).
    rewrite list_elem_of_lookup. split.
    + intros [k Hk]. rewrite drain_trace_lookup in Hk.
      destruct (l !! k) as [y|] eqn:Hy; [|discriminate].
      simpl in Hk. injection Hk as <- <-. eauto.
    + intros (k & Hk & ->). exists k. rewrite drain_trace_lookup, Hk. reflexivity.
  - intros i Hi. apply (Rep_vacant _ _ _ i H' Hi).
  - exact Hh.
  - exact Ht.
  - unfold empty. rewrite Hh, Ht. apply Z.eqb_refl.
Qed.

(** A push that succeeds on a reachable state writes the slot at [head],
    no other slot, and advances [head] by one on the ring. *)
Lemma push_writes_head_slot q v q' :
  reachable CAP q ->
  try_push CAP v q = Returned true q' ->
  exists w, copy_construct v = Done w /\
            buf_ q' = <[Z.to_nat (head_ q) := Some w]> (buf_ q) /\
            head_ q' = (head_ q + 1) mod CAP /\ tail_ q' = tail_ q.
Proof using CAP_size_t CAP_valid.
  intros Hr Hpush. destruct (reachable_Rep q Hr) as [l H].
  rewrite try_push_emplace in Hpush.
  pose proof (try_emplace_Rep copy_construct v q l H) as Hd.
  destruct (_ =? _); [rewrite Hd in Hpush; discriminate|].
  destruct (copy_construct v) as [w|e]; [|rewrite Hd in Hpush; discriminate].
  destruct Hd as (q2 & Hd & _ & Hb & Hh & Ht).
  rewrite Hd in Hpush. injection Hpush as ->. exists w. auto.
Qed.

(** C7, amended. Reuse of a vacated slot. On every reachable state, when
    a pop has removed the element of slot [i] (the read cursor [tail])
    and the next push then succeeds, the new element is constructed in
    the slot at the write cursor [head], which is not [i], and slot [i]
    still holds no object after that push. Every successful push writes
    the slot at [head] only and advances [head] by one modulo [CAP]: slot
    [i] is written again by the push made when [head] has come round the
    ring to it. *)
Theorem vacated_slot_reuse q out o q1 v q2 :
  reachable CAP q ->
  try_pop CAP out q = Returned (true, o) q1 ->
  try_push CAP v q1 = Returned true q2 ->
  head_ q <> tail_ q /\
  (exists w, copy_construct v = Done w /\
             buf_ q2 !! Z.to_nat (head_ q) = Some (Some w)) /\
  buf_ q2 !! Z.to_nat (tail_ q) = Some None /\
  tail_ q2 = (tail_ q + 1) mod CAP /\
  (forall q' v' q'',
      reachable CAP q' ->
      try_push CAP v' q' = Returned true q'' ->
      exists w, copy_construct v' = Done w /\
                buf_ q'' = <[Z.to_nat (head_ q') := Some w]> (buf_ q') /\
                head_ q'' = (head_ q' + 1) mod CAP /\ tail_ q'' = tail_ q').
Proof using CAP_size_t CAP_valid.
  intros Hr Hpop Hpush. destruct (reachable_Rep q Hr) as [l H].
  assert (Hr1 : reachable CAP q1).
  { eapply rtc_r; [exact Hr|]. apply (step_pop CAP out). rewrite Hpop. reflexivity. }
  pose proof (try_pop_Rep out q l H) as Hc.
  destruct l as [|x l]; [rewrite Hc in Hpop; discriminate|].
  destruct (copy_assign out x) as [o'|e]; [|rewrite Hc in Hpop; discriminate].
  destruct Hc as (q1' & Hc & H1 & Hb1 & Hh1 & Ht1).
  rewrite Hc in Hpop. injection Hpop as -> ->.
  destruct (push_writes_head_slot q1 v q2 Hr1 Hpush) as (w & Hw & Hb2 & Hh2 & Ht2).
  destruct (Rep_well_formed q _ H) as (Hlen & Hhr & Htr).
  assert (Hne : head_ q <> tail_ q).
  { intros Heq. symmetry in Heq. apply (Rep_tail_is_head _ _ _ _ H) in Heq. discriminate. }
  split; [exact Hne|]. split; [|split; [|split]].
  - exists w. split; [exact Hw|].
    rewrite Hb2, Hh1. apply list_lookup_insert_eq.
    rewrite Hb1, length_insert. lia.
  - rewrite Hb2, Hh1, Hb1. rewrite list_lookup_insert_ne by lia.
    apply list_lookup_insert_eq. lia.
  - rewrite Ht2, Ht1. reflexivity.
  - intros q' v' q'' Hr' Hp'. exact (push_writes_head_slot q' v' q'' Hr' Hp').
Qed.

End Properties.

(** ** Element types the member functions accept *)

Section InstantiationFacts.
Import Instantiation.

Lemma move_only_push_move t :
  move_only t -> well_formed_for TryPushMove t = true.
Proof.
  intros (Hmc & _). unfold well_formed_for, constructible, selected.
  destruct (move_constructor t); [reflexivity|discriminate|discriminate].
Qed.

Lemma move_only_pop t :
  move_only t -> well_formed_for TryPop t = false.
Proof.
  intros (_ & _ & _ & Hca & _). unfold well_formed_for, assignable, selected.
  rewrite Hca. reflexivity.
Qed.

(** C8 (evaluation at [std::unique_ptr<int>]). For this movable but not
    copyable element type, [try_push(T &&)] is well-formed, and [try_pop]
    is not: its [out = *p] assigns from an lvalue, which selects the
    deleted copy assignment. *)
Theorem move_only_element_cannot_be_popped :
  move_only unique_ptr /\
  well_formed_for TryPushMove unique_ptr = true /\
  well_formed_for TryPop unique_ptr = false.
Proof.
  assert (H : move_only unique_ptr) by (repeat split).
  split; [exact H|]. split; [apply move_only_push_move|apply move_only_pop]; exact H.
Qed.

End InstantiationFacts.

(** ** Facts about the concrete instances *)

Lemma plain_faithful : Faithful plain_element.
Proof. split; simpl; intros; congruence. Qed.

Lemma plain_nothrow : NoThrow plain_element.
Proof. split; simpl; intros; eauto. Qed.

(** The indices wrap: on a queue of capacity 2, the second push after a
    pop goes back to slot 0. *)
Example wraparound_capacity_2 :
  run (E:=plain_element) 2 [Push 1; Push 2; Pop 0; Push 3; Pop 0; Push 4; Pop 0; Pop 0]
    (mkHistory [] []) (init 2) =
  Some (mkHistory [1; 3; 4] [1; 3; 4], mkQueue [None; None] 1 1).
Proof. reflexivity. Qed.

(** A push whose constructor throws is not recorded and changes nothing. *)
Example throwing_push_capacity_4 :
  run (E:=checked_element) 4 [Push 5; Push (-1); PushMove 6; Pop 0]
    (mkHistory [] []) (init 4) =
  Some (mkHistory [5; 6] [5], mkQueue [None; Some 6; None; None] 2 1).
Proof. reflexivity. Qed.

(** The capacities that the constructor accepts. *)
Example capacities :
  map valid_capacity [0; 1; 2; 3; 4; 6; 1024; 65536] =
  [false; false; true; false; true; false; true; true].
Proof. reflexivity. Qed.

Lemma two_pushed_reachable : reachable (E:=plain_element) 4 two_pushed.
Proof.
  eapply rtc_l; [apply (step_push 4 7); reflexivity|].
  eapply rtc_l; [apply (step_push 4 8); reflexivity|].
  apply rtc_refl.
Qed.

(** C7, as stated, fails. From [two_pushed], [try_pop] removes
    the element of slot 0 and the next [try_push(9)] succeeds, but the new
    element is in slot 2 and slot 0 holds no object. *)
Lemma vacated_slot_not_reused_by_next_push :
  ~ (forall (q : SPSCQueue Z) out o q1 v q2,
       reachable (E:=plain_element) 4 q ->
       try_pop (E:=plain_element) 4 out q = Returned (true, o) q1 ->
       try_push (E:=plain_element) 4 v q1 = Returned true q2 ->
       buf_ q2 !! Z.to_nat (tail_ q) = Some (Some v)).
Proof.
  intros H.
  specialize (H two_pushed 0 7 (mkQueue [None; Some 8; None; None] 2 1) 9
                (mkQueue [None; Some 8; Some 9; None] 3 1)
                two_pushed_reachable eq_refl eq_refl).
  discriminate H.
Qed.

(** ** The theorems at concrete inputs *)

(** FIFO order on a queue of capacity 4: three pushes and two pops. *)
Lemma fifo_order_witness :
  4 < 2 ^ SIZE_BITS /\ valid_capacity 4 = true /\ Faithful plain_element /\
  exists h q pending,
    run (E:=plain_element) 4 [Push 1; Push 2; Pop 0; Push 3; Pop 0]
      (mkHistory [] []) (init 4) = Some (h, q) /\
    Rep 4 q pending /\
    pushed h = popped h ++ pending /\
    popped h `prefix_of` pushed h /\
    (empty q = true -> popped h = pushed h).
Proof.
  split; [reflexivity|]. split; [reflexivity|]. split; [exact plain_faithful|].
  exact (@fifo_order unit Z plain_element 4 eq_refl eq_refl plain_faithful
           [Push 1; Push 2; Pop 0; Push 3; Pop 0]).
Defined.

(** The full/empty boundary at capacity 4: three pushes fill the queue. *)
Lemma full_empty_boundary_witness :
  4 < 2 ^ SIZE_BITS /\ valid_capacity 4 = true /\ NoThrow plain_element /\
  Z.of_nat (length [1; 2; 3]) = 4 - 1 /\
  exists q1,
    push_each (E:=plain_element) 4 [1; 2; 3] (init 4) = Returned [true; true; true] q1 /\
    (forall v, try_push (E:=plain_element) 4 v q1 = Returned false q1) /\
    full 4 q1 = true /\
    exists rs q2,
      pop_n (E:=plain_element) 4 3 0 q1 = Returned rs q2 /\
      rs.*1 = [true; true; true] /\
      empty q2 = true.
Proof.
  split; [reflexivity|]. split; [reflexivity|]. split; [exact plain_nothrow|].
  split; [reflexivity|].
  apply (@full_empty_boundary unit Z plain_element 4 eq_refl eq_refl plain_nothrow [1; 2; 3] 0).
  reflexivity.
Defined.

(** The teardown of the queue holding 7 and 8. *)
Lemma clear_drains_live_range_witness :
  4 < 2 ^ SIZE_BITS /\ valid_capacity 4 = true /\
  reachable (E:=plain_element) 4 two_pushed /\
  exists l,
    Rep 4 two_pushed l /\
    forall fuel, (length l <= fuel)%nat ->
    exists trace q',
      clear (exn:=unit) 4 fuel two_pushed = Returned trace q' /\
      destructor (exn:=unit) 4 fuel two_pushed = Returned trace q' /\
      trace = drain_trace 4 (tail_ two_pushed) l /\
      (forall k : nat, trace.*1 !! k =
         if decide (k < length l)%nat
         then Some ((tail_ two_pushed + Z.of_nat k) mod 4) else None) /\
      NoDup trace.*1 /\
      (forall i x, 0 <= i < 4 ->
         (i, x) ∈ trace <-> buf_ two_pushed !! Z.to_nat i = Some (Some x)) /\
      (forall i, 0 <= i < 4 -> buf_ q' !! Z.to_nat i = Some None) /\
      head_ q' = head_ two_pushed /\ tail_ q' = head_ two_pushed /\ empty q' = true.
Proof.
  assert (Hr : reachable (E:=plain_element) 4 two_pushed).
  { eapply rtc_l; [apply (step_push 4 7); reflexivity|].
    eapply rtc_l; [apply (step_push 4 8); reflexivity|].
    apply rtc_refl. }
  split; [reflexivity|]. split; [reflexivity|]. split; [exact Hr|].
  exact (clear_drains_live_range 4 eq_refl eq_refl two_pushed Hr).
Defined.

(** A throwing constructor on a new queue whose element type refuses
    negative values. *)
Lemma construction_failure_witness :
  well_formed 4 (init (T:=Z) 4) /\ full 4 (init (T:=Z) 4) = false /\
  copy_construct (Element:=checked_element) (-1) = Raise tt /\
  try_push (E:=checked_element) 4 (-1) (init 4) = Threw tt (init 4).
Proof.
  assert (Hwf : well_formed 4 (init (T:=Z) 4)) by (repeat split; simpl; lia).
  split; [exact Hwf|]. split; [reflexivity|]. split; [reflexivity|].
  apply (construction_failure_leaves_queue_unchanged (E:=checked_element) 4 (init 4) Hwf eq_refl).
  reflexivity.
Defined.

(** The three producer operations on the queue holding 7 and 8, for the
    element type whose copy constructor throws: the push by copy throws,
    the push by move returns [true]. *)
Lemma producer_variants_outcomes_witness :
  well_formed 4 two_pushed /\
  full 4 two_pushed = false /\
  try_push (E:=copy_throwing_element) 4 9 two_pushed = Threw tt two_pushed /\
  try_push_move (E:=copy_throwing_element) 4 9 two_pushed =
    Returned true (mkQueue [Some 7; Some 8; Some 9; None] 3 0) /\
  (try_push_move (E:=copy_throwing_element) 4 9 two_pushed =
     try_push (E:=copy_throwing_element) 4 9 two_pushed
   <-> move_construct (Element:=copy_throwing_element) 9
       = copy_construct (Element:=copy_throwing_element) 9).
Proof.
  assert (Hwf : well_formed 4 two_pushed) by (repeat split; simpl; lia).
  split; [exact Hwf|]. split; [reflexivity|]. split; [reflexivity|]. split; [reflexivity|].
  pose proof (producer_variants_outcomes (E:=copy_throwing_element) 4 two_pushed 9 Hwf)
    as (_ & _ & _ & Hnf).
  exact (proj1 (proj2 (Hnf eq_refl))).
Defined.

(** C9, as stated, fails. For the element type whose copy constructor
    throws and whose move constructor does not, on the queue holding 7
    and 8, [try_push(v)] by copy leaves by the exception with the queue
    unchanged while [try_push(std::move(v))] returns [true] with the
    element stored: not the same boolean, not the same state. *)
Lemma producer_variants_differ :
  ~ (forall (q : SPSCQueue Z) (v : Z),
       try_push_move (E:=copy_throwing_element) 4 v q
       = try_push (E:=copy_throwing_element) 4 v q /\
       try_emplace 4 (copy_construct (Element:=copy_throwing_element)) v q
       = try_push (E:=copy_throwing_element) 4 v q).
Proof.
  intros H. destruct (H two_pushed 9) as [Hmc _]. discriminate Hmc.
Qed.

(** A new queue of capacity 2 is empty and not full. *)
Lemma empty_and_full_exclusive_witness :
  2 < 2 ^ SIZE_BITS /\ valid_capacity 2 = true /\
  reachable (E:=plain_element) 2 (init 2) /\
  ~ (empty (init (T:=Z) 2) = true /\ full 2 (init (T:=Z) 2) = true).
Proof.
  assert (Hr : reachable (E:=plain_element) 2 (init 2)) by apply rtc_refl.
  split; [reflexivity|]. split; [reflexivity|]. split; [exact Hr|].
  exact (empty_and_full_exclusive 2 eq_refl eq_refl (init 2) Hr).
Defined.

(** Slot reuse on the queue holding 7 and 8: the pop vacates slot 0 and
    the push of 9 goes to slot 2. *)
Lemma vacated_slot_reuse_witness :
  4 < 2 ^ SIZE_BITS /\ valid_capacity 4 = true /\
  reachable (E:=plain_element) 4 two_pushed /\
  head_ two_pushed <> tail_ two_pushed /\
  (exists w, copy_construct (Element:=plain_element) 9 = Done w /\
             [None; Some 8; Some 9; None] !! Z.to_nat (head_ two_pushed) = Some (Some w)) /\
  [None; Some 8; Some 9; None] !! Z.to_nat (tail_ two_pushed) = Some None /\
  1 = (tail_ two_pushed + 1) mod 4 /\
  (forall q' v' q'',
      reachable (E:=plain_element) 4 q' ->
      try_push (E:=plain_element) 4 v' q' = Returned true q'' ->
      exists w, copy_construct (Element:=plain_element) v' = Done w /\
                buf_ q'' = <[Z.to_nat (head_ q') := Some w]> (buf_ q') /\
                head_ q'' = (head_ q' + 1) mod 4 /\ tail_ q'' = tail_ q').
Proof.
  assert (Hr : reachable (E:=plain_element) 4 two_pushed).
  { eapply rtc_l; [apply (step_push 4 7); reflexivity|].
    eapply rtc_l; [apply (step_push 4 8); reflexivity|].
    apply rtc_refl. }
  split; [reflexivity|]. split; [reflexivity|]. split; [exact Hr|].
  exact (vacated_slot_reuse (E:=plain_element) 4 eq_refl eq_refl two_pushed 0 7
           (mkQueue [None; Some 8; None; None] 2 1) 9
           (mkQueue [None; Some 8; Some 9; None] 3 1) Hr eq_refl eq_refl).
Defined.

(** ** Further properties of the queue *)

(** X1. The capacities that pass the two [static_assert]s of the constructor
    are the powers of two from [2] to [2 ^ 63]. *)
Theorem valid_capacity_iff_power_of_two (CAP : Z) :
  CAP < 2 ^ SIZE_BITS ->
  valid_capacity CAP = true <-> exists k, 1 <= k < SIZE_BITS /\ CAP = 2 ^ k.
Proof.
  intros Hlt. split.
  - intros Hv. pose proof (CAP_ge_2 CAP Hv) as Hge.
    pose proof (CAP_pow2 CAP Hlt Hv) as Hp.
    exists (Z.log2 CAP). split; [|exact Hp]. split.
    + change 1 with (Z.log2 2). apply Z.log2_le_mono. exact Hge.
    + apply Z.log2_lt_pow2; [lia|exact Hlt].
  - intros (k & [Hk1 Hk2] & ->). unfold valid_capacity.
    assert (Hpow : 2 <= 2 ^ k).
    { change 2 with (2 ^ 1) at 1. apply Z.pow_le_mono_r; lia. }
    assert (Hlt' : 2 ^ k < 2 ^ SIZE_BITS) by (apply Z.pow_lt_mono_r; lia).
    apply andb_true_intro. split; [apply Z.leb_le; exact Hpow|].
    apply Z.eqb_eq. unfold size_t_wrap. rewrite Z.mod_small by lia.
    replace (2 ^ k - 1) with (Z.ones k) by (rewrite Z.ones_equiv; lia).
    rewrite Z.land_ones by lia. apply Z.mod_same. lia.
Qed.

Lemma run_with_cap_spec CAP sizes c :
  run_with_cap CAP sizes = RunWithCap c <-> c = CAP /\ CAP ∈ sizes.
Proof.
  induction sizes as [|d sizes IH]; simpl.
  - split; [discriminate|]. intros [_ H]. inversion H.
  - destruct (Z.eqb_spec CAP d) as [->|Hne].
    + split.
      * intros [= ->]. split; [reflexivity|]. apply list_elem_of_here.
      * intros [-> _]. reflexivity.
    + rewrite IH. split; intros [-> H]; (split; [reflexivity|]).
      * apply list_elem_of_further. exact H.
      * apply elem_of_cons in H as [H|H]; [contradiction|exact H].
Qed.

Lemma run_with_cap_unsupported CAP sizes :
  run_with_cap CAP sizes = Unsupported <-> CAP ∉ sizes.
Proof.
  induction sizes as [|d sizes IH]; simpl.
  - split; [intros _ H; inversion H|reflexivity].
  - destruct (Z.eqb_spec CAP d) as [->|Hne].
    + split; [discriminate|]. intros H. exfalso. apply H. apply list_elem_of_here.
    + rewrite IH. rewrite elem_of_cons. tauto.
  Qed.

(** X2. [main] rejects (exit code 1) exactly the capacities that the
    constructor's [static_assert]s reject; it runs the benchmark exactly
    for the six listed sizes, each of which the [static_assert]s accept;
    and every other power of two, the accepted sizes 2 and 4 among them,
    ends with exit code 2. *)
Theorem main_dispatch_spec (CAP : Z) :
  (main_dispatch CAP = Rejected <-> valid_capacity CAP = false) /\
  (forall c, main_dispatch CAP = RunWithCap c <->
             c = CAP /\ CAP ∈ supported_capacities) /\
  (forall c, main_dispatch CAP = RunWithCap c ->
             valid_capacity c = true /\ c < 2 ^ SIZE_BITS) /\
  (main_dispatch CAP = Unsupported <->
   valid_capacity CAP = true /\ CAP ∉ supported_capacities) /\
  main_dispatch 2 = Unsupported /\ main_dispatch 4 = Unsupported /\
  main_dispatch (main_capacity None) = RunWithCap 65536.
Proof.
  assert (Hsup : forall c, c ∈ supported_capacities ->
                           valid_capacity c = true /\ c < 2 ^ SIZE_BITS).
  { intros c Hc. unfold supported_capacities in Hc.
    repeat (apply elem_of_cons in Hc as [->|Hc]; [split; reflexivity|]).
    inversion Hc. }
  assert (Hnr : forall sizes, run_with_cap CAP sizes <> Rejected).
  { induction sizes as [|d l IH]; simpl; [discriminate|].
    destruct (CAP =? d); [discriminate|exact IH]. }
  assert (Hrej : main_dispatch CAP = Rejected <-> valid_capacity CAP = false).
  { unfold main_dispatch, valid_capacity.
    destruct (Z.land CAP (size_t_wrap (CAP - 1)) =? 0); cbn [negb orb andb].
    - destruct (Z.ltb_spec CAP 2) as [Hlt|Hge].
      + replace (2 <=? CAP) with false by (symmetry; apply Z.leb_gt; lia). tauto.
      + replace (2 <=? CAP) with true by (symmetry; apply Z.leb_le; lia).
        cbn [negb orb andb]. split; [intros Hr; exfalso; exact (Hnr supported_capacities Hr)|discriminate].
    - rewrite andb_false_r. tauto. }
  assert (Hrun : forall c, main_dispatch CAP = RunWithCap c <->
                           c = CAP /\ CAP ∈ supported_capacities).
  { intros c. split.
    - intros H. unfold main_dispatch in H.
      destruct (_ || _); [discriminate|]. apply run_with_cap_spec. exact H.
    - intros [-> Hin]. destruct (Hsup CAP Hin) as [Hv _].
      unfold main_dispatch. unfold valid_capacity in Hv.
      apply andb_prop in Hv as [H2 Hl]. rewrite Hl. apply Z.leb_le in H2.
      replace (CAP <? 2) with false by (symmetry; apply Z.ltb_ge; lia).
      cbn [negb orb]. apply run_with_cap_spec. auto. }
  split; [exact Hrej|]. split; [exact Hrun|]. split; [|split].
  - intros c Hc. apply Hrun in Hc as [-> Hin]. apply Hsup. exact Hin.
  - split.
    + intros H. split.
      * apply not_false_iff_true. intros Hv. apply Hrej in Hv. congruence.
      * unfold main_dispatch in H. destruct (_ || _); [discriminate|].
        apply run_with_cap_unsupported. exact H.
    + intros [Hv Hnin]. unfold main_dispatch. unfold valid_capacity in Hv.
      apply andb_prop in Hv as [H2 Hl]. rewrite Hl. apply Z.leb_le in H2.
      replace (CAP <? 2) with false by (symmetry; apply Z.ltb_ge; lia).
      cbn [negb orb]. apply run_with_cap_unsupported. exact Hnin.
  - repeat split; reflexivity.
Qed.

Section Frames.
Context {exn T : Type} {E : Element exn T}.
Variable CAP : Z.
Implicit Types (q : SPSCQueue T) (v out : T).

(** X3. The producer role: whatever the state and however the call ends, a
    producer operation leaves [tail] and the number of slots as they
    were and changes no slot but the one at [head]. *)
Theorem producer_writes_head_slot_only (Args : Type) (ctor : Args -> attempt exn T) args q q' :
  final_state (try_emplace CAP ctor args q) = Some q' ->
  tail_ q' = tail_ q /\
  length (buf_ q') = length (buf_ q) /\
  (forall i : nat, i <> Z.to_nat (head_ q) -> buf_ q' !! i = buf_ q !! i) /\
  (forall v, try_push CAP v = try_emplace CAP copy_construct v) /\
  (forall v, try_push_move CAP v = try_emplace CAP move_construct v).
Proof.
  rewrite try_emplace_cases. intros Hf.
  assert (Hcore : tail_ q' = tail_ q /\ length (buf_ q') = length (buf_ q) /\
                  forall i : nat, i <> Z.to_nat (head_ q) -> buf_ q' !! i = buf_ q !! i).
  { destruct (full CAP q); [injection Hf as <-; auto|].
    destruct (in_array CAP (head_ q) q); [|discriminate].
    destruct (ctor args) as [x|e]; injection Hf as <-; simpl; [|auto].
    split; [reflexivity|]. split; [apply length_insert|].
    intros i Hi. apply list_lookup_insert_ne. auto. }
  destruct Hcore as (H1 & H2 & H3). auto using try_push_emplace, try_push_move_emplace.
Qed.

(** X4. The consumer role: whatever the state and however the call ends,
    [try_pop] leaves [head] and the number of slots as they were and
    changes no slot but the one at [tail]. *)
Theorem consumer_writes_tail_slot_only out q q' :
  final_state (try_pop CAP out q) = Some q' ->
  head_ q' = head_ q /\
  length (buf_ q') = length (buf_ q) /\
  (forall i : nat, i <> Z.to_nat (tail_ q) -> buf_ q' !! i = buf_ q !! i).
Proof.
  rewrite try_pop_cases. intros Hf.
  destruct (empty q); [injection Hf as <-; auto|].
  destruct (in_array CAP (tail_ q) q); [|discriminate].
  destruct (buf_ q !! Z.to_nat (tail_ q)) as [[x|]|]; try discriminate.
  destruct (copy_assign out x) as [o|e]; injection Hf as <-; simpl; [|auto].
  split; [reflexivity|]. split; [apply length_insert|].
  intros i Hi. apply list_lookup_insert_ne. auto.
Qed.

(** X5. A copy assignment that throws in [try_pop] leaves the queue as it
    was: in a well-formed, non-empty state whose slot at [tail] holds
    [x], when [out = *p] throws [e], the call leaves by [e], the element
    has not been destroyed and [tail] has not moved. *)
Theorem pop_assignment_failure_leaves_queue_unchanged q out x e :
  well_formed CAP q -> empty q = false ->
  buf_ q !! Z.to_nat (tail_ q) = Some (Some x) ->
  copy_assign out x = Raise e ->
  try_pop CAP out q = Threw e q.
Proof.
  intros Hwf Hne Hx He. destruct (well_formed_in_array CAP q Hwf) as [_ Ht].
  rewrite try_pop_cases, Hne, Ht, Hx, He. reflexivity.
Qed.

(** When the loop of [clear] returns, its local [tail] has reached
    [head], and the queue's [head] and [tail] fields are as they were. *)
Lemma clear_loop_returns fuel : forall t h q r q1,
  clear_loop (exn:=exn) CAP fuel t h q = Returned r q1 ->
  r.1 = h /\ head_ q1 = head_ q /\ tail_ q1 = tail_ q.
Proof.
  induction fuel as [|fuel IH]; intros t h q r q1; simpl.
  - destruct (Z.eqb_spec t h) as [->|_]; [|discriminate].
    intros [= <- <-]. auto.
  - destruct (Z.eqb_spec t h) as [->|_]; [intros [= <- <-]; auto|].
    unfold bind at 1. unfold elem_ptr, elem_addr.
    destruct (_ && _ && _); [|discriminate].
    unfold bind at 1. unfold deref.
    destruct (buf_ q !! Z.to_nat t) as [[x|]|] eqn:Hx; try discriminate.
    unfold bind at 1. unfold destroy. rewrite Hx.
    unfold bind at 1.
    destruct (clear_loop CAP fuel _ h _) as [r' q2| | |] eqn:Hl; try discriminate.
    intros [= <- <-]. apply IH in Hl as (H1 & H2 & H3). auto.
Qed.

(** X6. [clear()] is idempotent: whatever the state, after a [clear()] that
    returns, [tail] equals [head], and a second [clear()] makes no
    destructor call and leaves the state as it is, whatever its
    iteration budget. *)
Theorem clear_twice q fuel trace q' :
  clear (exn:=exn) CAP fuel q = Returned trace q' ->
  tail_ q' = head_ q' /\ head_ q' = head_ q /\
  forall fuel', clear (exn:=exn) CAP fuel' q' = Returned [] q'.
Proof.
  unfold clear at 1. unfold bind, load_tail, load_head.
  destruct (clear_loop CAP fuel (tail_ q) (head_ q) q) as [r q1| | |] eqn:Hl;
    try discriminate.
  apply clear_loop_returns in Hl as (H1 & H2 & H3).
  unfold store_tail, ret. intros [= <- <-]. simpl.
  split; [congruence|]. split; [exact H2|].
  intros fuel'. unfold clear, bind, load_tail, load_head, store_tail, ret. simpl.
  rewrite H1, H2. destruct fuel'; simpl; rewrite Z.eqb_refl; reflexivity.
Qed.

End Frames.

Section Safety.
Context {exn T : Type} {E : Element exn T}.
Variable CAP : Z.
Hypothesis CAP_size_t : CAP < 2 ^ SIZE_BITS.
Hypothesis CAP_valid : valid_capacity CAP = true.
Implicit Types (q : SPSCQueue T) (l : list T) (v out : T).

(** With a destructor that returns, no call on a reachable state has
    undefined behaviour: every producer operation and [try_pop] returns
    or throws, and [clear()] returns within [CAP] iterations. *)
Lemma queue_calls_defined q :
  reachable CAP q ->
  (forall (Args : Type) (ctor : Args -> attempt exn T) args,
      is_Some (final_state (try_emplace CAP ctor args q))) /\
  (forall v, is_Some (final_state (try_push CAP v q))) /\
  (forall v, is_Some (final_state (try_push_move CAP v q))) /\
  (forall out, is_Some (final_state (try_pop CAP out q))) /\
  (forall fuel, (Z.to_nat CAP <= fuel)%nat ->
                exists trace q', clear (exn:=exn) CAP fuel q = Returned trace q').
Proof using CAP_size_t CAP_valid.
  intros Hr. destruct (reachable_Rep CAP CAP_size_t CAP_valid q Hr) as [l H].
  assert (Hem : forall (Args : Type) (ctor : Args -> attempt exn T) args,
             is_Some (final_state (try_emplace CAP ctor args q))).
  { intros Args ctor args.
    pose proof (try_emplace_Rep CAP CAP_size_t CAP_valid ctor args q l H) as Hc.
    destruct (_ =? _); [rewrite Hc; eauto|].
    destruct (ctor args); [destruct Hc as (q' & -> & _)|rewrite Hc]; eauto. }
  split; [exact Hem|]. split; [|split; [|split]].
  - intros v. rewrite try_push_emplace. apply Hem.
  - intros v. rewrite try_push_move_emplace. apply Hem.
  - intros out. pose proof (try_pop_Rep CAP CAP_size_t CAP_valid out q l H) as Hc.
    destruct l as [|x l]; [rewrite Hc; eauto|].
    destruct (copy_assign out x); [destruct Hc as (q' & -> & _)|rewrite Hc]; eauto.
  - intros fuel Hfuel. pose proof (rep_count _ _ _ _ _ H) as Hn.
    destruct (clear_Rep (exn:=exn) CAP CAP_size_t CAP_valid q l fuel H ltac:(lia)) as (q' & Hc & _).
    eauto.
Qed.

Lemma run_count (ops : list (op (T:=T))) : forall h q l,
  Rep CAP q l ->
  length (pushed h) = (length (popped h) + length l)%nat ->
  exists h' q' l',
    run CAP ops h q = Some (h', q') /\
    Rep CAP q' l' /\
    length (pushed h') = (length (popped h') + length l')%nat.
Proof using CAP_size_t CAP_valid.
  assert (Hpush : forall (ctor : T -> attempt exn T) v h q l,
             Rep CAP q l ->
             length (pushed h) = (length (popped h) + length l)%nat ->
             exists h' q' l',
               record_push v (try_emplace CAP ctor v q) h = Some (h', q') /\
               Rep CAP q' l' /\
               length (pushed h') = (length (popped h') + length l')%nat).
  { intros ctor v h q l H Hh.
    pose proof (try_emplace_Rep CAP CAP_size_t CAP_valid ctor v q l H) as Hc.
    destruct (_ =? _).
    - rewrite Hc. exists h, q, l. auto.
    - destruct (ctor v) as [w|e].
      + destruct Hc as (q1 & -> & H1 & _). simpl.
        do 3 eexists. split; [reflexivity|]. split; [exact H1|].
        simpl. rewrite !length_app. simpl. lia.
      + rewrite Hc. exists h, q, l. auto. }
  induction ops as [|o ops IH]; intros h q l H Hh.
  - simpl. exists h, q, l. auto.
  - simpl run.
    assert (exists h1 q1 l1,
               match o with
               | Push v => record_push v (try_push CAP v q) h
               | PushMove v => record_push v (try_push_move CAP v q) h
               | Pop out => record_pop (try_pop CAP out q) h
               end = Some (h1, q1) /\
               Rep CAP q1 l1 /\
               length (pushed h1) = (length (popped h1) + length l1)%nat)
      as (h1 & q1 & l1 & -> & H1 & Hh1).
    { destruct o as [v|v|out].
      - rewrite try_push_emplace. apply (Hpush _ v h q l); assumption.
      - rewrite try_push_move_emplace. apply (Hpush _ v h q l); assumption.
      - pose proof (try_pop_Rep CAP CAP_size_t CAP_valid out q l H) as Hc.
        destruct l as [|x l].
        + rewrite Hc. exists h, q, []. auto.
        + destruct (copy_assign out x) as [w|e].
          * destruct Hc as (q1 & -> & H1 & _). simpl.
            do 3 eexists. split; [reflexivity|]. split; [exact H1|].
            simpl. rewrite length_app. simpl in *. lia.
          * rewrite Hc. exists h, q, (x :: l). auto. }
    eapply IH; eassumption.
Qed.

(** With a destructor that returns, whatever the constructors and the
    assignment of the element type do: any sequence of pushes and pops
    on a new queue runs without undefined behaviour; the destructor of
    the queue then returns; the number of
    pushes that returned [true] (objects constructed) is the number of
    pops that returned [true] plus the number of destructor calls the
    queue's destructor makes (objects destroyed); and afterwards no slot
    holds an object. *)
Lemma queue_constructions_balance (ops : list (op (T:=T))) (fuel : nat) :
  (Z.to_nat CAP <= fuel)%nat ->
  exists h q trace q',
    run CAP ops (mkHistory [] []) (init CAP) = Some (h, q) /\
    destructor (exn:=exn) CAP fuel q = Returned trace q' /\
    length (pushed h) = (length (popped h) + length trace)%nat /\
    (forall i, 0 <= i < CAP -> buf_ q' !! Z.to_nat i = Some None).
Proof using CAP_size_t CAP_valid.
  intros Hfuel.
  pose proof (run_count ops (mkHistory [] []) (init CAP) []
                (Rep_init CAP CAP_valid) eq_refl) as Hr.
  destruct Hr as (h & q & l & Hrun & H & Hh).
  pose proof (rep_count _ _ _ _ _ H) as Hn.
  destruct (clear_Rep (exn:=exn) CAP CAP_size_t CAP_valid q l fuel H ltac:(lia))
    as (q' & Hc & H' & _).
  exists h, q, (drain_trace CAP (tail_ q) l), q'.
  split; [exact Hrun|]. split; [exact Hc|]. split.
  - unfold drain_trace. rewrite length_imap. exact Hh.
  - intros i Hi. apply (Rep_vacant CAP CAP_valid _ _ _ i H' Hi).
Qed.

End Safety.

(** ** The benchmark *)

Section Benchmark.
Variables CAP N : Z.
Hypothesis CAP_size_t : CAP < 2 ^ SIZE_BITS.
Hypothesis CAP_valid : valid_capacity CAP = true.
Hypothesis N_size_t : 0 <= N < 2 ^ 64.

Lemma triangle_succ c : 0 <= c -> (c + 1) * (c + 1 - 1) / 2 = c * (c - 1) / 2 + c.
Proof.
  intros Hc. replace ((c + 1) * (c + 1 - 1)) with (c * (c - 1) + c * 2) by lia.
  apply Z.div_add. lia.
Qed.

Lemma bench_init_inv v0 : bench_inv CAP N (bench_init CAP v0).
Proof using CAP_valid N_size_t.
  split; simpl; try reflexivity; [lia|]. apply Rep_init. exact CAP_valid.
Qed.

Lemma producer_step_inv s :
  bench_inv CAP N s ->
  exists s', producer_step CAP N s = Some s' /\ bench_inv CAP N s' /\
             cons_i s' = cons_i s /\
             prod_i s' = if (prod_i s <? N) && negb (full CAP (bench_q s))
                         then prod_i s + 1 else prod_i s.
Proof using CAP_size_t CAP_valid N_size_t.
  intros [Ho Hq Hs Hp Hc]. unfold producer_step.
  destruct (Z.ltb_spec (prod_i s) N) as [Hlt|Hge]; simpl.
  2:{ exists s. split; [reflexivity|]. split; [split; assumption|]. split; reflexivity. }
  rewrite (Rep_full CAP CAP_size_t CAP_valid _ _ Hq).
  rewrite try_push_emplace.
  change (copy_construct (Element:=plain_element)) with (fun v : Z => Done (exn:=unit) v).
  pose proof (try_emplace_Rep CAP CAP_size_t CAP_valid
                (fun v : Z => Done (exn:=unit) v)
                (uint64_wrap (prod_i s)) (bench_q s) _ Hq) as Hpush.
  destruct (_ =? _).
  - rewrite Hpush. simpl. eexists. split; [reflexivity|].
    split; [split; assumption|]. split; reflexivity.
  - simpl in Hpush. destruct Hpush as (q' & -> & H' & _). simpl.
    assert (Hw : uint64_wrap (prod_i s) = prod_i s)
      by (unfold uint64_wrap; apply Z.mod_small; lia).
    assert (Hw' : size_t_wrap (prod_i s + 1) = prod_i s + 1)
      by (unfold size_t_wrap, SIZE_BITS; apply Z.mod_small; lia).
    eexists. split; [reflexivity|]. rewrite Hw', Hw in *. rewrite Hp, Hw'.
    split; [|split; reflexivity]. split; simpl; try assumption; try lia; try reflexivity.
    replace (prod_i s + 1 - cons_i s) with ((prod_i s - cons_i s) + 1) by lia.
    rewrite seqZ_app by lia.
    replace (cons_i s + (prod_i s - cons_i s)) with (prod_i s) by lia.
    exact H'.
Qed.

Lemma consumer_step_inv s :
  bench_inv CAP N s ->
  exists s', consumer_step CAP N s = Some s' /\ bench_inv CAP N s' /\
             prod_i s' = prod_i s /\
             cons_i s' = if (cons_i s <? N) && negb (empty (bench_q s))
                         then cons_i s + 1 else cons_i s.
Proof using CAP_size_t CAP_valid N_size_t.
  intros [Ho Hq Hs Hp Hc]. unfold consumer_step.
  destruct (Z.ltb_spec (cons_i s) N) as [Hlt|Hge]; simpl.
  2:{ exists s. split; [reflexivity|]. split; [split; assumption|]. split; reflexivity. }
  rewrite (Rep_empty CAP CAP_valid _ _ Hq).
  pose proof (try_pop_Rep (E:=plain_element) CAP CAP_size_t CAP_valid
                (cons_v s) (bench_q s) _ Hq) as Hpop.
  rewrite length_seqZ in *.
  destruct (Z.eq_dec (prod_i s) (cons_i s)) as [Heq|Hne].
  - assert (Hl : seqZ (cons_i s) (prod_i s - cons_i s) = [])
      by (rewrite Heq, Z.sub_diag; reflexivity).
    rewrite Hl in Hpop. rewrite Hpop. simpl.
    eexists. split; [reflexivity|]. split; [split; assumption|].
    simpl. split; [reflexivity|].
    replace (Z.of_nat (Z.to_nat (prod_i s - cons_i s)) =? 0) with true
      by (symmetry; apply Z.eqb_eq; lia).
    reflexivity.
  - rewrite seqZ_cons in Hpop by lia. simpl in Hpop.
    destruct Hpop as (q' & -> & H' & _). simpl.
    replace (Z.of_nat (Z.to_nat (prod_i s - cons_i s)) =? 0) with false
      by (symmetry; apply Z.eqb_neq; lia).
    simpl.
    assert (Hw' : size_t_wrap (cons_i s + 1) = cons_i s + 1)
      by (unfold size_t_wrap, SIZE_BITS; apply Z.mod_small; lia).
    eexists. split; [reflexivity|]. rewrite Hc, Hw'.
    split; [|split; reflexivity]. split; simpl; try assumption; try lia; try reflexivity.
    + replace (prod_i s - (cons_i s + 1)) with (Z.pred (prod_i s - cons_i s)) by lia.
      exact H'.
    + rewrite Hs. unfold uint64_wrap. rewrite Z.add_mod_idemp_l by lia.
      rewrite triangle_succ by lia. reflexivity.
Qed.

Lemma thread_step_inv t s :
  bench_inv CAP N s ->
  exists s', thread_step CAP N t s = Some s' /\ bench_inv CAP N s'.
Proof using CAP_size_t CAP_valid N_size_t.
  intros H. destruct t; simpl.
  - destruct (producer_step_inv s H) as (s' & ? & ? & _). eauto.
  - destruct (consumer_step_inv s H) as (s' & ? & ? & _). eauto.
Qed.

Lemma run_schedule_inv sched : forall s,
  bench_inv CAP N s ->
  exists s', run_schedule CAP N sched s = Some s' /\ bench_inv CAP N s'.
Proof using CAP_size_t CAP_valid N_size_t.
  induction sched as [|t sched IH]; intros s H; simpl.
  - eauto.
  - destruct (thread_step_inv t s H) as (s1 & -> & H1). apply IH. exact H1.
Qed.

Lemma bench_can_finish (m : nat) : forall s,
  bench_inv CAP N s ->
  (Z.to_nat ((N - prod_i s) + (N - cons_i s)) <= m)%nat ->
  exists sched s',
    run_schedule CAP N sched s = Some s' /\ bench_inv CAP N s' /\ joined N s' = true.
Proof using CAP_size_t CAP_valid N_size_t.
  pose proof (CAP_ge_2 CAP CAP_valid) as Hcap.
  induction m as [|m IH]; intros s H Hm; pose proof (inv_order _ _ _ H) as Ho.
  - exists [], s. split; [reflexivity|]. split; [exact H|].
    unfold joined. apply andb_true_intro. split; apply Z.eqb_eq; lia.
  - destruct (Z.eq_dec (cons_i s) N) as [Hc|Hc].
    + exists [], s. split; [reflexivity|]. split; [exact H|].
      unfold joined. apply andb_true_intro. split; apply Z.eqb_eq; lia.
    + pose proof (inv_queue _ _ _ H) as Hq.
      destruct (Z.eq_dec (prod_i s) (cons_i s)) as [Hpc|Hpc].
      * destruct (producer_step_inv s H) as (s1 & Hstep & H1 & Hc1 & Hp1).
        rewrite (Rep_full CAP CAP_size_t CAP_valid _ _ Hq), length_seqZ in Hp1.
        replace (prod_i s <? N) with true in Hp1 by (symmetry; apply Z.ltb_lt; lia).
        replace (Z.of_nat (Z.to_nat (prod_i s - cons_i s)) =? CAP - 1) with false in Hp1
          by (symmetry; apply Z.eqb_neq; lia).
        simpl in Hp1.
        destruct (IH s1 H1 ltac:(lia)) as (sched & s' & Hrun & H' & Hj).
        exists (Producer :: sched), s'. simpl. rewrite Hstep. auto.
      * destruct (consumer_step_inv s H) as (s1 & Hstep & H1 & Hp1 & Hc1).
        rewrite (Rep_empty CAP CAP_valid _ _ Hq), length_seqZ in Hc1.
        replace (cons_i s <? N) with true in Hc1 by (symmetry; apply Z.ltb_lt; lia).
        replace (Z.of_nat (Z.to_nat (prod_i s - cons_i s)) =? 0) with false in Hc1
          by (symmetry; apply Z.eqb_neq; lia).
        simpl in Hc1.
        destruct (IH s1 H1 ltac:(lia)) as (sched & s' & Hrun & H' & Hj).
        exists (Consumer :: sched), s'. simpl. rewrite Hstep. auto.
Qed.

(** X9. Under every interleaving of the calls of the two threads, the
    benchmark has no undefined behaviour, and at every point: the
    consumer has popped no more than the producer has pushed, at most
    [CAP - 1] values are in flight, they are the values
    [cons_i, ..., prod_i - 1] in order, the running sum is the sum of
    [0, ..., cons_i - 1] modulo [2 ^ 64], and the two counters equal the
    loop indices. *)
Theorem benchmark_invariant (v0 : Z) (sched : list thread) :
  exists s,
    run_schedule CAP N sched (bench_init CAP v0) = Some s /\
    bench_inv CAP N s /\
    prod_i s - cons_i s <= CAP - 1.
Proof using CAP_size_t CAP_valid N_size_t.
  destruct (run_schedule_inv sched _ (bench_init_inv v0)) as (s & Hrun & H).
  exists s. split; [exact Hrun|]. split; [exact H|].
  pose proof (rep_count _ _ _ _ _ (inv_queue _ _ _ H)) as Hn.
  rewrite length_seqZ in Hn. lia.
Qed.

(** X10. The round trip of the benchmark: under every interleaving of the
    calls after which both loops have ended, the queue is empty, both
    counters are [N] and the sum is [N * (N - 1) / 2] modulo [2 ^ 64].
    [Checksum OK?] prints yes exactly when [expected], computed in
    [unsigned long long], is that number, which it is whenever
    [N * (N - 1)] does not overflow. *)
Theorem benchmark_checksum (v0 : Z) (sched : list thread) (s : bench) :
  run_schedule CAP N sched (bench_init CAP v0) = Some s ->
  joined N s = true ->
  cons_sum s = uint64_wrap (N * (N - 1) / 2) /\
  produced s = N /\ consumed s = N /\
  empty (bench_q s) = true /\
  (checksum_ok N s = true <-> expected N = uint64_wrap (N * (N - 1) / 2)) /\
  (N * (N - 1) < 2 ^ 64 -> checksum_ok N s = true).
Proof using CAP_size_t CAP_valid N_size_t.
  intros Hrun Hj.
  destruct (run_schedule_inv sched _ (bench_init_inv v0)) as (s' & Hrun' & H).
  rewrite Hrun in Hrun'. injection Hrun' as <-.
  unfold joined in Hj. apply andb_prop in Hj as [Hp Hc]. apply Z.eqb_eq in Hp, Hc.
  destruct H as [Ho Hq Hs Hpr Hco].
  assert (Hsum : cons_sum s = uint64_wrap (N * (N - 1) / 2)) by (rewrite Hs, Hc; reflexivity).
  assert (Hiff : checksum_ok N s = true <-> expected N = uint64_wrap (N * (N - 1) / 2)).
  { unfold checksum_ok. rewrite Z.eqb_eq, Hsum. split; congruence. }
  split; [exact Hsum|]. split; [congruence|]. split; [congruence|]. split; [|split].
  - rewrite (Rep_empty CAP CAP_valid _ _ Hq), length_seqZ. apply Z.eqb_eq. lia.
  - exact Hiff.
  - intros Hno. apply Hiff. unfold expected, uint64_wrap.
    rewrite (Z.mod_small N) by lia.
    destruct (Z.eq_dec N 0) as [->|Hn0].
    + reflexivity.
    + rewrite (Z.mod_small (N - 1)) by lia.
      rewrite (Z.mod_small (N * (N - 1))) by nia.
      symmetry. apply Z.mod_small. split.
      * apply Z.div_pos; nia.
      * apply Z.div_lt_upper_bound; nia.
Qed.

(** X11. No deadlock: from the state reached under any interleaving of the
    calls, some continuation of the schedule brings both loops to their
    end. *)
Theorem benchmark_can_always_finish (v0 : Z) (sched : list thread) (s : bench) :
  run_schedule CAP N sched (bench_init CAP v0) = Some s ->
  exists sched' s',
    run_schedule CAP N sched' s = Some s' /\ joined N s' = true.
Proof using CAP_size_t CAP_valid N_size_t.
  intros Hrun.
  destruct (run_schedule_inv sched _ (bench_init_inv v0)) as (s1 & Hrun' & H).
  rewrite Hrun in Hrun'. injection Hrun' as <-.
  destruct (bench_can_finish _ s H (Nat.le_refl _)) as (sched' & s' & Hr & _ & Hj).
  eauto.
Qed.

End Benchmark.

(** ** The pool *)

Module ObjectPoolFacts.
Import ObjectPool.

Section Facts.
Context {exn T : Type}.
Variable N : Z.
Hypothesis N_valid : valid_size N = true.
Implicit Types (p : pool T) (fl : list Z) (b : list (option T)) (i : Z).

Lemma N_range : 0 < N <= INT_MAX.
Proof using N_valid.
  unfold valid_size in N_valid. apply andb_prop in N_valid as [H1 H2]. lia.
Qed.

Lemma int_cast_small x : - 2 ^ 31 <= x < 2 ^ 31 -> int_cast x = x.
Proof. intros Hx. unfold int_cast. rewrite Z.mod_small by lia. lia. Qed.

Lemma int_cast_N : int_cast N = N.
Proof using N_valid. pose proof N_range. unfold INT_MAX in *. apply int_cast_small. lia. Qed.

Lemma linked_lookup (k : nat) : forall nf0 : list Z,
  (k <= length nf0)%nat ->
  let nf := foldl (fun nf i => <[Z.to_nat i := int_cast (i + 1)]> nf) nf0 (seqZ 0 (Z.of_nat k)) in
  length nf = length nf0 /\
  forall j : nat, nf !! j = if decide (j < k)%nat then Some (int_cast (Z.of_nat j + 1)) else nf0 !! j.
Proof.
  induction k as [|k IH]; intros nf0 Hk; simpl.
  - split; [reflexivity|]. intros j. destruct (decide (j < 0)%nat); [lia|reflexivity].
  - rewrite seqZ_S, foldl_app. simpl.
    destruct (IH nf0 ltac:(lia)) as [Hlen Hlook]. simpl in Hlen, Hlook.
    rewrite Z.add_0_l, Nat2Z.id. split; [rewrite length_insert; exact Hlen|].
    intros j. destruct (Nat.eq_dec j k) as [->|Hne].
    + rewrite list_lookup_insert_eq by lia.
      destruct (decide (k < S k)%nat); [reflexivity|lia].
    + rewrite list_lookup_insert_ne by lia. rewrite Hlook.
      destruct (decide (j < k)%nat), (decide (j < S k)%nat); try lia; reflexivity.
Qed.

(** The links that the constructor writes. *)
Lemma new_pool_links (j : nat) :
  _next_free (new_pool (T:=T) N) !! j =
  if decide (Z.of_nat j < N - 1) then Some (Z.of_nat j + 1)
  else if decide (Z.of_nat j = N - 1) then Some _kEmpty else None.
Proof using N_valid.
  pose proof N_range as HN. unfold INT_MAX in HN.
  unfold new_pool. simpl.
  assert (Hw : size_t_wrap (N - 1) = N - 1)
    by (unfold size_t_wrap, SIZE_BITS; apply Z.mod_small; lia).
  rewrite Hw.
  replace (N - 1) with (Z.of_nat (Z.to_nat (N - 1))) at 2 by lia.
  destruct (linked_lookup (Z.to_nat (N - 1)) (replicate (Z.to_nat N) 0)) as [Hlen Hlook].
  { rewrite length_replicate. lia. }
  simpl in Hlen, Hlook. rewrite length_replicate in Hlen.
  destruct (decide (Z.of_nat j < N - 1)) as [Hlt|Hge].
  - rewrite list_lookup_insert_ne by lia. rewrite Hlook.
    destruct (decide (j < Z.to_nat (N - 1))%nat); [|lia].
    rewrite int_cast_small by lia. reflexivity.
  - destruct (decide (Z.of_nat j = N - 1)) as [Heq|Hne].
    + replace j with (Z.to_nat (N - 1)) by lia.
      apply list_lookup_insert_eq. lia.
    + apply lookup_ge_None_2. rewrite length_insert. lia.
Qed.

Lemma new_pool_chain (k : nat) : forall a,
  0 <= a -> a + Z.of_nat k = N ->
  chain (_next_free (new_pool (T:=T) N)) (if decide (a = N) then _kEmpty else a)
    (seqZ a (Z.of_nat k)).
Proof using N_valid.
  induction k as [|k IH]; intros a Ha Hk.
  - simpl. destruct (decide (a = N)); [reflexivity|lia].
  - rewrite seqZ_cons by lia. cbn [chain].
    destruct (decide (a = N)); [lia|]. split; [reflexivity|].
    exists (if decide (a + 1 = N) then _kEmpty else a + 1). split.
    + rewrite (new_pool_links (Z.to_nat a)).
      rewrite Z2Nat.id by lia.
      destruct (decide (a < N - 1)), (decide (a + 1 = N)); try lia; try reflexivity.
      destruct (decide (a = N - 1)); [reflexivity|lia].
    + replace (Z.pred (Z.of_nat (S k))) with (Z.of_nat k) by lia.
      replace (Z.succ a) with (a + 1) by lia.
      apply IH; lia.
Qed.

Lemma live_count_replicate (n : nat) : live_count (replicate n (@None T)) = 0%nat.
Proof.
  unfold live_count. induction n as [|n IH]; [reflexivity|]. simpl.
  rewrite filter_cons_False; [exact IH|]. intros [x Hx]. discriminate.
Qed.

Lemma live_count_insert_Some b (j : nat) x :
  b !! j = Some None -> live_count (<[j := Some x]> b) = S (live_count b).
Proof.
  unfold live_count. revert j. induction b as [|o b IH]; intros j Hj; [discriminate|].
  destruct j as [|j]; simpl in *.
  - injection Hj as ->. rewrite !filter_cons. simpl. reflexivity.
  - rewrite !filter_cons. destruct (decide (is_Some o)); simpl; rewrite (IH j Hj); reflexivity.
Qed.

Lemma live_count_insert_None b (j : nat) x :
  b !! j = Some (Some x) -> S (live_count (<[j := None]> b)) = live_count b.
Proof.
  unfold live_count. revert j. induction b as [|o b IH]; intros j Hj; [discriminate|].
  destruct j as [|j]; simpl in *.
  - injection Hj as ->. rewrite !filter_cons. simpl. reflexivity.
  - rewrite !filter_cons. destruct (decide (is_Some o)); simpl; rewrite <- (IH j Hj); reflexivity.
Qed.

Lemma new_pool_Rep : PoolRep N (new_pool (T:=T) N) (seqZ 0 N).
Proof using N_valid.
  pose proof N_range as HN. unfold INT_MAX in HN. split.
  - simpl. apply length_replicate.
  - unfold new_pool. simpl. rewrite length_insert.
    assert (Hw : size_t_wrap (N - 1) = N - 1)
      by (unfold size_t_wrap, SIZE_BITS; apply Z.mod_small; lia).
    rewrite Hw. replace (N - 1) with (Z.of_nat (Z.to_nat (N - 1))) by lia.
    destruct (linked_lookup (Z.to_nat (N - 1)) (replicate (Z.to_nat N) 0)) as [Hlen _].
    { rewrite length_replicate. lia. }
    simpl in Hlen. rewrite Hlen. apply length_replicate.
  - pose proof (new_pool_chain (Z.to_nat N) 0 ltac:(lia) ltac:(lia)) as Hc.
    destruct (decide (0 = N)); [lia|]. rewrite Z2Nat.id in Hc by lia. exact Hc.
  - apply NoDup_seqZ.
  - intros i. rewrite elem_of_seqZ. simpl. split.
    + intros Hi. split; [lia|]. apply lookup_replicate_2. lia.
    + intros [Hi _]. lia.
  - simpl. rewrite length_seqZ. lia.
  - simpl. rewrite live_count_replicate, length_seqZ. lia.
Qed.

Variable slot_size : Z.
Hypothesis slot_size_pos : 0 < slot_size.
(** The array [_buf] is an object: its size in bytes is a [ptrdiff_t]. *)
Hypothesis pool_bytes : N * slot_size < 2 ^ 63.

Lemma ptr_slot i : 0 <= i ->
  0 <= ptr_from_index slot_size i /\
  ptr_from_index slot_size i mod slot_size = 0 /\
  ptr_from_index slot_size i / slot_size = i.
Proof using slot_size_pos.
  intros Hi. unfold ptr_from_index. split; [nia|]. split.
  - apply Z.mod_mul. lia.
  - apply Z.div_mul. lia.
Qed.

Lemma PoolRep_bound p fl : PoolRep N p fl -> Z.of_nat (length fl) <= N.
Proof using N_valid.
  intros H. pose proof (pool_live_count _ _ _ H). pose proof N_range. lia.
Qed.

Lemma chain_insert nf h fl i v :
  0 <= i -> i ∉ fl -> (forall j, j ∈ fl -> 0 <= j) ->
  chain nf h fl -> chain (<[Z.to_nat i := v]> nf) h fl.
Proof.
  intros Hi. revert h. induction fl as [|j fl IH]; intros h Hnin Hpos Hc; simpl in *.
  - exact Hc.
  - destruct Hc as (-> & next & Hnext & Hc).
    apply not_elem_of_cons in Hnin as [Hne Hnin].
    split; [reflexivity|]. exists next. split.
    + rewrite list_lookup_insert_ne; [exact Hnext|].
      pose proof (Hpos j ltac:(apply list_elem_of_here)). lia.
    + apply IH; [exact Hnin| |exact Hc].
      intros k Hk. apply Hpos. apply list_elem_of_further. exact Hk.
Qed.

(** [create] on a state with free list [fl]. *)
Lemma create_Rep {Args} (ctor : Args -> attempt exn T) args p fl :
  PoolRep N p fl ->
  match fl with
  | [] => create N slot_size ctor args p = Returned None p
  | i :: fl' =>
      match ctor args with
      | Done x =>
          exists p', create N slot_size ctor args p =
                       Returned (Some (ptr_from_index slot_size i)) p' /\
                     PoolRep N p' fl' /\
                     _buf p' = <[Z.to_nat i := Some x]> (_buf p) /\
                     _free_count p' = _free_count p - 1 /\
                     _next_free p' = _next_free p /\
                     _next_free p !! Z.to_nat i = Some (_head p')
      | Raise e => create N slot_size ctor args p = Threw e p
      end
  end.
Proof using N_valid slot_size_pos.
  intros H. pose proof (PoolRep_bound p fl H) as Hb. pose proof N_range as HN.
  unfold INT_MAX in HN.
  destruct H as [Hs Hl Hc Hnd Hf Hfc Hlc].
  unfold create, bind, allocate_index. rewrite Hfc.
  destruct fl as [|i fl']; [reflexivity|].
  simpl length in *. simpl in Hc. destruct Hc as (Hh & next & Hnext & Hc).
  replace (Z.of_nat (S (length fl')) =? 0) with false by (symmetry; apply Z.eqb_neq; lia).
  assert (Hi : 0 <= i < N /\ _buf p !! Z.to_nat i = Some None)
    by (apply Hf; apply list_elem_of_here).
  destruct Hi as [Hi Hvac].
  unfold next_free_at. rewrite Hh.
  replace ((0 <=? i) && (i <? N)) with true
    by (symmetry; apply andb_true_intro; split; [apply Z.leb_le|apply Z.ltb_lt]; lia).
  rewrite Hnext.
  replace (i =? _kEmpty) with false by (symmetry; apply Z.eqb_neq; unfold _kEmpty; lia).
  destruct (ptr_slot i ltac:(lia)) as (Hp0 & Hpm & Hpd).
  unfold try_catch_rethrow, bind, construct_at. cbn [_buf _next_free _head _free_count].
  rewrite Hpm, Hpd.
  replace ((0 <=? ptr_from_index slot_size i) && (0 =? 0) && (Z.to_nat i <? length (_buf p))%nat)
    with true.
  2:{ symmetry. repeat (apply andb_true_intro; split);
      [apply Z.leb_le; lia|reflexivity|apply Nat.ltb_lt; lia]. }
  assert (Hw : size_t_wrap (Z.of_nat (S (length fl')) - 1) = Z.of_nat (length fl'))
    by (unfold size_t_wrap, SIZE_BITS; rewrite Z.mod_small; lia).
  rewrite Hw.
  destruct (ctor args) as [x|e].
  - eexists. split; [reflexivity|]. cbn [_buf _free_count _next_free _head].
    split; [|split; [reflexivity|split; [lia|split; reflexivity]]].
    apply NoDup_cons in Hnd as [Hnin Hnd].
    split; cbn [_buf _next_free _head _free_count].
    + rewrite length_insert. exact Hs.
    + exact Hl.
    + exact Hc.
    + exact Hnd.
    + intros j. split.
      * intros Hj. assert (Hji : j <> i) by (intros ->; contradiction).
        destruct (proj1 (Hf j) ltac:(apply list_elem_of_further; exact Hj)) as [Hjr Hjv].
        split; [exact Hjr|]. rewrite list_lookup_insert_ne by lia. exact Hjv.
      * intros [Hjr Hjv]. destruct (Z.eq_dec j i) as [->|Hji].
        -- rewrite list_lookup_insert_eq in Hjv by lia. discriminate.
        -- rewrite list_lookup_insert_ne in Hjv by lia.
           assert (Hin : j ∈ i :: fl') by (apply Hf; auto).
           apply elem_of_cons in Hin as [?|?]; [contradiction|assumption].
    + reflexivity.
    + rewrite (live_count_insert_Some _ _ _ Hvac). lia.
  - unfold release_index. cbn [_buf _next_free _head _free_count].
    rewrite int_cast_N.
    replace ((0 <=? i) && (i <? N) && (Z.to_nat i <? length (_next_free p))%nat) with true.
    2:{ symmetry. repeat (apply andb_true_intro; split);
        [apply Z.leb_le; lia|apply Z.ltb_lt; lia|apply Nat.ltb_lt; lia]. }
    rewrite (list_insert_id _ _ _ Hnext).
    assert (Hw2 : size_t_wrap (Z.of_nat (length fl') + 1) = _free_count p)
      by (unfold size_t_wrap, SIZE_BITS; rewrite Z.mod_small; lia).
    rewrite Hw2, <- Hh. destruct p; reflexivity.
Qed.

(** [destroy] on the address of slot [i], in which an object lives. *)
Lemma destroy_Rep p fl i x :
  PoolRep N p fl -> 0 <= i < N ->
  _buf p !! Z.to_nat i = Some (Some x) ->
  exists p', destroy (exn:=exn) N slot_size (Some (ptr_from_index slot_size i)) p = Returned tt p' /\
             PoolRep N p' (i :: fl) /\
             _buf p' = <[Z.to_nat i := None]> (_buf p) /\
             _free_count p' = _free_count p + 1 /\
             _next_free p' = <[Z.to_nat i := _head p]> (_next_free p) /\
             _head p' = i.
Proof using N_valid slot_size_pos pool_bytes.
  intros H Hi Hx. pose proof (PoolRep_bound p fl H) as Hb. pose proof N_range as HN.
  unfold INT_MAX in HN.
  destruct H as [Hs Hl Hc Hnd Hf Hfc Hlc].
  destruct (ptr_slot i ltac:(lia)) as (Hp0 & Hpm & Hpd).
  assert (Hw : size_t_wrap (ptr_from_index slot_size i) = ptr_from_index slot_size i).
  { unfold size_t_wrap, SIZE_BITS. apply Z.mod_small. unfold ptr_from_index in *. nia. }
  assert (Hr : (0 <=? i) && (i <? N) = true)
    by (apply andb_true_intro; split; [apply Z.leb_le|apply Z.ltb_lt]; lia).
  assert (Hq : (0 <=? ptr_from_index slot_size i) = true) by (apply Z.leb_le; lia).
  unfold destroy, bind, index_from_ptr, assert, destroy_at.
  rewrite Hw, Hpm, Hpd, Hq. cbn [Z.eqb andb].
  rewrite int_cast_N, (int_cast_small i) by lia.
  rewrite !Hr.
  rewrite Hx. unfold release_index. cbn [_buf _next_free _head _free_count].
  rewrite int_cast_N.
  replace ((0 <=? i) && (i <? N) && (Z.to_nat i <? length (_next_free p))%nat) with true.
  2:{ symmetry. repeat (apply andb_true_intro; split);
      [apply Z.leb_le; lia|apply Z.ltb_lt; lia|apply Nat.ltb_lt; lia]. }
  assert (Hw2 : size_t_wrap (_free_count p + 1) = _free_count p + 1)
    by (unfold size_t_wrap, SIZE_BITS; rewrite Z.mod_small; lia).
  rewrite Hw2.
  assert (Hnin : i ∉ fl).
  { intros Hin. apply Hf in Hin as [_ Hv]. congruence. }
  assert (Hpos : forall j, j ∈ fl -> 0 <= j).
  { intros j Hj. apply Hf in Hj as [Hj _]. lia. }
  eexists. split; [reflexivity|]. cbn [_buf _free_count _next_free _head].
  split; [|repeat split; reflexivity].
  split; cbn [_buf _next_free _head _free_count].
  - rewrite length_insert. exact Hs.
  - rewrite length_insert. exact Hl.
  - cbn [chain]. split; [reflexivity|]. exists (_head p). split.
    + apply list_lookup_insert_eq. lia.
    + apply chain_insert; [lia|exact Hnin|exact Hpos|exact Hc].
  - apply NoDup_cons. split; assumption.
  - intros j. rewrite elem_of_cons. split.
    + intros [->|Hj].
      * split; [lia|]. apply list_lookup_insert_eq. lia.
      * assert (Hji : j <> i) by (intros ->; contradiction).
        destruct (proj1 (Hf j) Hj) as [Hjr Hjv].
        split; [exact Hjr|]. rewrite list_lookup_insert_ne by lia. exact Hjv.
    + intros [Hjr Hjv]. destruct (Z.eq_dec j i) as [->|Hji]; [left; reflexivity|right].
      rewrite list_lookup_insert_ne in Hjv by lia. apply Hf. auto.
  - simpl length. lia.
  - pose proof (live_count_insert_None _ _ _ Hx). simpl length. lia.
Qed.

(** A [destroy] that does not end in undefined behaviour was called on
    the address of a slot in which an object lives. *)
Lemma destroy_defined p fl ptr p' :
  PoolRep N p fl ->
  pool_final_state (destroy (exn:=exn) N slot_size ptr p) = Some p' ->
  exists i x, ptr = Some (ptr_from_index slot_size i) /\ 0 <= i < N /\
              _buf p !! Z.to_nat i = Some (Some x).
Proof using N_valid slot_size_pos.
  intros H Hf. destruct ptr as [pc|]; [|discriminate].
  unfold destroy, bind, index_from_ptr, assert, destroy_at in Hf.
  destruct (size_t_wrap pc mod slot_size =? 0); [|discriminate].
  destruct (_ && _); [|discriminate].
  destruct (_ && _); [|discriminate].
  destruct ((0 <=? pc) && (pc mod slot_size =? 0)) eqn:Hpc; [|discriminate].
  destruct (_buf p !! Z.to_nat (pc / slot_size)) as [[x|]|] eqn:Hx; try discriminate.
  apply andb_prop in Hpc as [Hp0 Hpm]. apply Z.leb_le in Hp0. apply Z.eqb_eq in Hpm.
  exists (pc / slot_size), x.
  assert (Hdiv : 0 <= pc / slot_size) by (apply Z.div_pos; lia).
  split; [|split].
  - f_equal. unfold ptr_from_index.
    rewrite (Z.div_mod pc slot_size) at 1 by lia. lia.
  - apply lookup_lt_Some in Hx. rewrite (pool_slots _ _ _ H) in Hx. lia.
  - exact Hx.
Qed.

(** Every pool_reachable state has a free list. *)
Lemma pool_reachable_Rep p : pool_reachable (exn:=exn) N slot_size p -> exists fl, PoolRep N p fl.
Proof using N_valid slot_size_pos pool_bytes.
  intros Hr.
  apply (rtc_ind_r (R:=pool_step (exn:=exn) N slot_size) (fun p => exists fl, PoolRep N p fl)
           (new_pool N)); [| |exact Hr].
  - exists (seqZ 0 N). apply new_pool_Rep.
  - intros p1 p2 _ Hs [fl H]. destruct Hs as [Args ctor args p1 p2 Hf|ptr p1 p2 Hf].
    + pose proof (create_Rep ctor args p1 fl H) as Hc. destruct fl as [|i fl'].
      * rewrite Hc in Hf. injection Hf as <-. eauto.
      * destruct (ctor args) as [x|e].
        -- destruct Hc as (p' & Hc & H' & _). rewrite Hc in Hf. injection Hf as <-. eauto.
        -- rewrite Hc in Hf. injection Hf as <-. eauto.
    + destruct (destroy_defined p1 fl ptr p2 H Hf) as (i & x & -> & Hi & Hx).
      destruct (destroy_Rep p1 fl i x H Hi Hx) as (p' & Hd & H' & _).
      rewrite Hd in Hf. injection Hf as <-. eauto.
Qed.

Lemma create_each_Rep {Args} (ctor : Args -> attempt exn T) (args : list Args) : forall p fl,
  PoolRep N p fl ->
  (length args <= length fl)%nat ->
  (forall a, a ∈ args -> exists x, ctor a = Done x) ->
  exists p',
    create_each N slot_size ctor args p =
      Returned ((fun i => Some (ptr_from_index slot_size i)) <$> take (length args) fl) p' /\
    PoolRep N p' (drop (length args) fl).
Proof using N_valid slot_size_pos.
  induction args as [|a args IH]; intros p fl H Hlen Hok.
  - exists p. rewrite drop_0. auto.
  - destruct fl as [|i fl]; [simpl in Hlen; lia|].
    pose proof (create_Rep ctor a p _ H) as Hc. simpl in Hc.
    destruct (Hok a ltac:(apply list_elem_of_here)) as [x Hx]. rewrite Hx in Hc.
    destruct Hc as (p1 & Hc & H1 & _).
    destruct (IH p1 fl H1) as (p2 & Hrun & H2).
    { simpl in Hlen. lia. }
    { intros b Hb. apply Hok. apply list_elem_of_further. exact Hb. }
    exists p2. split; [|exact H2].
    simpl create_each. unfold bind at 1. rewrite Hc.
    unfold bind at 1. rewrite Hrun. reflexivity.
Qed.

(** X12. Exhaustion. With a constructor that does not throw, [N] calls of
    [create] on a new pool return the addresses of the slots
    [0, 1, ..., N - 1], in that order; no slot is free then, and a
    further [create], whatever its constructor would do, returns
    [nullptr] and leaves the pool as it is. *)
Theorem create_until_exhausted {Args} (ctor : Args -> attempt exn T)
    (args : list Args) (extra : Args) :
  Z.of_nat (length args) = N ->
  (forall a, a ∈ args -> exists x, ctor a = Done x) ->
  exists p,
    create_each N slot_size ctor args (new_pool N) =
      Returned ((fun i => Some (ptr_from_index slot_size i)) <$> seqZ 0 N) p /\
    free_slots p = 0 /\
    create N slot_size ctor extra p = Returned None p.
Proof using N_valid slot_size_pos.
  intros Hlen Hok.
  destruct (create_each_Rep ctor args (new_pool N) (seqZ 0 N) new_pool_Rep) as (p & Hrun & H).
  { rewrite length_seqZ. lia. }
  { exact Hok. }
  rewrite take_ge in Hrun by (rewrite length_seqZ; lia).
  rewrite drop_ge in H by (rewrite length_seqZ; lia).
  exists p. split; [exact Hrun|]. split.
  - unfold free_slots. rewrite (pool_free_count _ _ _ H). reflexivity.
  - exact (create_Rep ctor extra p [] H).
Qed.


(** X14. A full pool. On every reachable state, [create] returns [nullptr]
    exactly when [free_slots()] is 0, and then leaves the pool as it is
    without calling the constructor. *)
Theorem create_nullptr_iff_full {Args} (ctor : Args -> attempt exn T) args p :
  pool_reachable (exn:=exn) N slot_size p ->
  ((exists p', create N slot_size ctor args p = Returned None p') <-> free_slots p = 0) /\
  (free_slots p = 0 -> create N slot_size ctor args p = Returned None p).
Proof using N_valid slot_size_pos pool_bytes.
  intros Hr. destruct (pool_reachable_Rep p Hr) as [fl H].
  pose proof (create_Rep ctor args p fl H) as Hc.
  unfold free_slots. rewrite (pool_free_count _ _ _ H).
  destruct fl as [|i fl].
  - split; [split; [reflexivity|eauto]|auto].
  - simpl length. split.
    + split; [|lia]. intros [p' Hp'].
      destruct (ctor args); [destruct Hc as (p1 & Hc & _)|]; rewrite Hc in Hp'; discriminate.
    + lia.
Qed.

(** X15. A constructor that throws. On every reachable state with a free
    slot, when the constructor throws [e], [create] leaves by [e] and
    the pool is exactly as before the call: the slot taken from the free
    list is back at its head. *)
Theorem create_failure_leaves_pool_unchanged {Args} (ctor : Args -> attempt exn T) args p e :
  pool_reachable (exn:=exn) N slot_size p ->
  free_slots p <> 0 ->
  ctor args = Raise e ->
  create N slot_size ctor args p = Threw e p.
Proof using N_valid slot_size_pos pool_bytes.
  intros Hr Hfree He. destruct (pool_reachable_Rep p Hr) as [fl H].
  pose proof (create_Rep ctor args p fl H) as Hc.
  destruct fl as [|i fl].
  - exfalso. apply Hfree. unfold free_slots. rewrite (pool_free_count _ _ _ H). reflexivity.
  - rewrite He in Hc. exact Hc.
Qed.


(** X17. LIFO reuse. On every reachable state, after a [destroy] that
    returns, the next [create] whose constructor does not throw returns
    the pointer just destroyed. *)
Theorem destroy_then_create_reuses_slot {Args} (ctor : Args -> attempt exn T) args x p ptr p1 :
  pool_reachable (exn:=exn) N slot_size p ->
  destroy (exn:=exn) N slot_size ptr p = Returned tt p1 ->
  ctor args = Done x ->
  exists p2, create N slot_size ctor args p1 = Returned ptr p2.
Proof using N_valid slot_size_pos pool_bytes.
  intros Hr Hd Hx. destruct (pool_reachable_Rep p Hr) as [fl H].
  destruct (destroy_defined p fl ptr p1 H ltac:(rewrite Hd; reflexivity))
    as (i & y & -> & Hi & Hy).
  destruct (destroy_Rep p fl i y H Hi Hy) as (p' & Hd' & H' & _).
  rewrite Hd' in Hd. injection Hd as ->.
  pose proof (create_Rep ctor args p1 _ H') as Hc. simpl in Hc. rewrite Hx in Hc.
  destruct Hc as (p2 & Hc & _). eauto.
Qed.





(** X21. Pointer and index. For every slot index [i] of the pool,
    [index_from_ptr(ptr_from_index(i))] is [i], and the addresses of
    distinct slots are distinct. *)
Theorem index_from_ptr_from_index p i :
  0 <= i < N ->
  index_from_ptr (exn:=exn) N slot_size (ptr_from_index slot_size i) p = Returned i p /\
  forall j, 0 <= j < N -> ptr_from_index slot_size i = ptr_from_index slot_size j -> i = j.
Proof using N_valid slot_size_pos pool_bytes.
  intros Hi. pose proof N_range as HN. unfold INT_MAX in HN.
  destruct (ptr_slot i ltac:(lia)) as (Hp0 & Hpm & Hpd). split.
  - assert (Hw : size_t_wrap (ptr_from_index slot_size i) = ptr_from_index slot_size i).
    { unfold size_t_wrap, SIZE_BITS. apply Z.mod_small. unfold ptr_from_index in *. nia. }
    unfold index_from_ptr. rewrite Hw, Hpm, Hpd. cbn [Z.eqb].
    rewrite int_cast_N, (int_cast_small i) by lia.
    replace ((0 <=? i) && (i <? N)) with true; [reflexivity|].
    symmetry. apply andb_true_intro. split; [apply Z.leb_le|apply Z.ltb_lt]; lia.
  - intros j Hj Heq. unfold ptr_from_index in Heq. nia.
Qed.

End Facts.

End ObjectPoolFacts.

(** ** The further theorems at concrete inputs *)

(** 1024 passes the [static_assert]s and is a power of two. *)
Lemma valid_capacity_witness :
  1024 < 2 ^ SIZE_BITS /\
  (valid_capacity 1024 = true <-> exists k, 1 <= k < SIZE_BITS /\ 1024 = 2 ^ k).
Proof.
  split; [reflexivity|].
  exact (valid_capacity_iff_power_of_two 1024 eq_refl).
Defined.

(** The push of 9 onto the queue holding 7 and 8 writes slot 2 only. *)
Lemma producer_frame_witness :
  final_state (try_emplace 4 (copy_construct (Element:=plain_element)) 9 two_pushed)
    = Some three_pushed /\
  tail_ three_pushed = tail_ two_pushed /\
  length (buf_ three_pushed) = length (buf_ two_pushed) /\
  (forall i : nat, i <> Z.to_nat (head_ two_pushed) ->
                   buf_ three_pushed !! i = buf_ two_pushed !! i).
Proof.
  assert (H0 : final_state (try_emplace 4 (copy_construct (Element:=plain_element)) 9 two_pushed)
               = Some three_pushed) by reflexivity.
  split; [exact H0|].
  pose proof (producer_writes_head_slot_only (E:=plain_element) 4 Z copy_construct 9
                two_pushed three_pushed H0) as (H1 & H2 & H3 & _).
  exact (conj H1 (conj H2 H3)).
Defined.

(** The pop from the queue holding 7, 8 and 9 writes slot 0 only. *)
Lemma consumer_frame_witness :
  final_state (try_pop (E:=plain_element) 4 0 three_pushed)
    = Some (mkQueue [None; Some 8; Some 9; None] 3 1) /\
  head_ (mkQueue [None; Some 8; Some 9; None] 3 1) = head_ three_pushed /\
  length [None; Some 8; Some 9; @None Z] = length (buf_ three_pushed) /\
  (forall i : nat, i <> Z.to_nat (tail_ three_pushed) ->
                   [None; Some 8; Some 9; None] !! i = buf_ three_pushed !! i).
Proof.
  split; [reflexivity|].
  exact (consumer_writes_tail_slot_only (E:=plain_element) 4 0 three_pushed
           (mkQueue [None; Some 8; Some 9; None] 3 1) eq_refl).
Defined.

(** A copy assignment that throws on the pop of [- 1]. *)
Lemma pop_assignment_failure_witness :
  well_formed 4 negative_pushed /\ empty negative_pushed = false /\
  buf_ negative_pushed !! Z.to_nat (tail_ negative_pushed) = Some (Some (-1)) /\
  copy_assign (Element:=fragile_element) 0 (-1) = Raise tt /\
  try_pop (E:=fragile_element) 4 0 negative_pushed = Threw tt negative_pushed.
Proof.
  assert (Hwf : well_formed 4 negative_pushed) by (repeat split; simpl; lia).
  split; [exact Hwf|]. split; [reflexivity|]. split; [reflexivity|]. split; [reflexivity|].
  exact (pop_assignment_failure_leaves_queue_unchanged (E:=fragile_element) 4
           negative_pushed 0 (-1) tt Hwf eq_refl eq_refl eq_refl).
Defined.

(** Two [clear()]s of the queue holding 7 and 8. *)
Lemma clear_twice_witness :
  clear (exn:=unit) 4 2 two_pushed = Returned [(0, 7); (1, 8)] (mkQueue [None; None; None; None] 2 2) /\
  forall fuel', clear (exn:=unit) 4 fuel' (mkQueue [None; None; None; @None Z] 2 2)
                = Returned [] (mkQueue [None; None; None; None] 2 2).
Proof.
  split; [reflexivity|].
  exact (proj2 (proj2 (clear_twice (exn:=unit) 4 two_pushed 2 [(0, 7); (1, 8)]
                         (mkQueue [None; None; None; None] 2 2) eq_refl))).
Defined.

(** The benchmark of capacity 2 with [N = 3], the producer scheduled
    three times in a row. *)
Lemma benchmark_invariant_witness :
  2 < 2 ^ SIZE_BITS /\ valid_capacity 2 = true /\ 0 <= 3 < 2 ^ 64 /\
  exists s,
    run_schedule 2 3 [Producer; Producer; Producer] (bench_init 2 0) = Some s /\
    bench_inv 2 3 s /\ prod_i s - cons_i s <= 2 - 1.
Proof.
  split; [reflexivity|]. split; [reflexivity|]. split; [lia|].
  exact (benchmark_invariant 2 3 eq_refl eq_refl ltac:(lia) 0 [Producer; Producer; Producer]).
Defined.

(** The benchmark of capacity 2 with [N = 3], the threads taking
    turns: the sum is 3. *)
Lemma benchmark_checksum_witness :
  2 < 2 ^ SIZE_BITS /\ valid_capacity 2 = true /\ 0 <= 3 < 2 ^ 64 /\
  run_schedule 2 3 [Producer; Consumer; Producer; Consumer; Producer; Consumer]
    (bench_init 2 0) = Some bench_done /\
  joined 3 bench_done = true /\
  cons_sum bench_done = uint64_wrap (3 * (3 - 1) / 2) /\
  produced bench_done = 3 /\ consumed bench_done = 3 /\
  empty (bench_q bench_done) = true /\
  (checksum_ok 3 bench_done = true <-> expected 3 = uint64_wrap (3 * (3 - 1) / 2)) /\
  (3 * (3 - 1) < 2 ^ 64 -> checksum_ok 3 bench_done = true).
Proof.
  split; [reflexivity|]. split; [reflexivity|]. split; [lia|].
  split; [reflexivity|]. split; [reflexivity|].
  exact (benchmark_checksum 2 3 eq_refl eq_refl ltac:(lia) 0
           [Producer; Consumer; Producer; Consumer; Producer; Consumer]
           bench_done eq_refl eq_refl).
Defined.

(** The benchmark of capacity 2 with [N = 3] can finish after the
    producer has been scheduled three times in a row. *)
Lemma benchmark_can_always_finish_witness :
  2 < 2 ^ SIZE_BITS /\ valid_capacity 2 = true /\ 0 <= 3 < 2 ^ 64 /\
  run_schedule 2 3 [Producer; Producer; Producer] (bench_init 2 0)
    = Some (mkBench (mkQueue [Some 0; None] 1 0) 1 1 0 0 0 0) /\
  exists sched' s',
    run_schedule 2 3 sched' (mkBench (mkQueue [Some 0; None] 1 0) 1 1 0 0 0 0) = Some s' /\
    joined 3 s' = true.
Proof.
  split; [reflexivity|]. split; [reflexivity|]. split; [lia|]. split; [reflexivity|].
  exact (benchmark_can_always_finish 2 3 eq_refl eq_refl ltac:(lia) 0
           [Producer; Producer; Producer]
           (mkBench (mkQueue [Some 0; None] 1 0) 1 1 0 0 0 0) eq_refl).
Defined.

Module ObjectPoolWitnesses.
Import ObjectPool.

(** Three objects exhaust a pool of three slots. *)
Lemma create_until_exhausted_witness :
  valid_size 3 = true /\ 0 < 8 /\ Z.of_nat (length [5; 6; 7]) = 3 /\
  exists p,
    create_each (exn:=unit) 3 8 (fun v : Z => Done v) [5; 6; 7] (new_pool 3) =
      Returned ((fun i => Some (ptr_from_index 8 i)) <$> seqZ 0 3) p /\
    free_slots p = 0 /\
    create (exn:=unit) 3 8 (fun v : Z => Done v) 9 p = Returned None p.
Proof.
  split; [reflexivity|]. split; [reflexivity|]. split; [reflexivity|].
  exact (ObjectPoolFacts.create_until_exhausted (exn:=unit) 3 eq_refl 8 eq_refl
           (fun v : Z => Done v) [5; 6; 7] 9 eq_refl
           (fun a _ => ex_intro _ a eq_refl)).
Defined.

(** A new pool is not full: [create] does not return [nullptr]. *)
Lemma create_nullptr_iff_full_witness :
  valid_size 3 = true /\ 0 < 8 /\ 3 * 8 < 2 ^ 63 /\
  pool_reachable (exn:=unit) 3 8 (new_pool (T:=Z) 3) /\
  ((exists p', create (exn:=unit) 3 8 (fun v : Z => Done v) 5 (new_pool 3) = Returned None p')
   <-> free_slots (new_pool (T:=Z) 3) = 0).
Proof.
  assert (Hr : pool_reachable (exn:=unit) 3 8 (new_pool (T:=Z) 3)) by apply rtc_refl.
  split; [reflexivity|]. split; [reflexivity|]. split; [reflexivity|]. split; [exact Hr|].
  exact (proj1 (ObjectPoolFacts.create_nullptr_iff_full (exn:=unit) 3 eq_refl 8 eq_refl eq_refl
                  (fun v : Z => Done v) 5 (new_pool 3) Hr)).
Defined.

(** A constructor that refuses [- 1] on a new pool. *)
Lemma create_failure_witness :
  valid_size 3 = true /\ 0 < 8 /\ 3 * 8 < 2 ^ 63 /\
  pool_reachable (exn:=unit) 3 8 (new_pool (T:=Z) 3) /\
  free_slots (new_pool (T:=Z) 3) <> 0 /\
  create 3 8 (fun v : Z => if v <? 0 then Raise tt else Done v) (-1) (new_pool 3)
    = Threw tt (new_pool 3).
Proof.
  assert (Hr : pool_reachable (exn:=unit) 3 8 (new_pool (T:=Z) 3)) by apply rtc_refl.
  assert (Hf : free_slots (new_pool (T:=Z) 3) <> 0) by discriminate.
  split; [reflexivity|]. split; [reflexivity|]. split; [reflexivity|]. split; [exact Hr|].
  split; [exact Hf|].
  exact (ObjectPoolFacts.create_failure_leaves_pool_unchanged 3 eq_refl 8 eq_refl eq_refl
           (fun v : Z => if v <? 0 then Raise tt else Done v) (-1) (new_pool 3) tt
           Hr Hf eq_refl).
Defined.


(** After the object of [one_created] is destroyed, [create] returns its
    address again. *)
Lemma destroy_then_create_reuses_slot_witness :
  valid_size 3 = true /\ 0 < 8 /\ 3 * 8 < 2 ^ 63 /\
  pool_reachable (exn:=unit) 3 8 one_created /\
  destroy (exn:=unit) 3 8 (Some 0) one_created = Returned tt (new_pool 3) /\
  exists p2, create (exn:=unit) 3 8 (fun v : Z => Done v) 6 (new_pool 3) = Returned (Some 0) p2.
Proof.
  assert (Hr : pool_reachable (exn:=unit) 3 8 one_created).
  { apply rtc_once. apply (pool_step_create 3 8 Z (fun v : Z => Done v) 5). reflexivity. }
  split; [reflexivity|]. split; [reflexivity|]. split; [reflexivity|]. split; [exact Hr|].
  split; [reflexivity|].
  exact (ObjectPoolFacts.destroy_then_create_reuses_slot (exn:=unit) 3 eq_refl 8 eq_refl eq_refl
           (fun v : Z => Done v) 6 6 one_created (Some 0) (new_pool 3) Hr eq_refl eq_refl).
Defined.



(** Slot 2 of a pool of three eight-byte slots is at offset 16. *)
Lemma index_from_ptr_from_index_witness :
  valid_size 3 = true /\ 0 < 8 /\ 3 * 8 < 2 ^ 63 /\ 0 <= 2 < 3 /\
  index_from_ptr (exn:=unit) 3 8 (ptr_from_index 8 2) (new_pool (T:=Z) 3)
    = Returned 2 (new_pool 3).
Proof.
  split; [reflexivity|]. split; [reflexivity|]. split; [reflexivity|]. split; [lia|].
  exact (proj1 (ObjectPoolFacts.index_from_ptr_from_index (exn:=unit) 3 eq_refl 8 eq_refl
                  eq_refl (new_pool 3) 2 ltac:(lia))).
Defined.

End ObjectPoolWitnesses.

(** ** The queue with the destructor of the element type *)

Section DtorQueueFacts.
Context {exn T : Type} {E : Element exn T} {D : Destructor exn T}.
Variable CAP : Z.
Implicit Types (q : SPSCQueue T) (l : list T) (v out : T).

Lemma clear_loop_never_throws fuel : forall t h q e q1,
  clear_loop (exn:=exn) CAP fuel t h q <> Threw e q1.
Proof.
  induction fuel as [|fuel IH]; intros t h q e q1; simpl.
  - destruct (t =? h); discriminate.
  - destruct (t =? h); [discriminate|].
    unfold bind at 1. unfold elem_ptr, elem_addr.
    destruct (_ && _ && _); [|discriminate].
    unfold bind at 1. unfold deref.
    destruct (buf_ q !! Z.to_nat t) as [[x|]|] eqn:Hx; try discriminate.
    unfold bind at 1. unfold destroy. rewrite Hx.
    unfold bind at 1.
    destruct (clear_loop CAP fuel _ h _) as [r' q2|e' q2| |] eqn:Hl; try discriminate.
    exfalso. exact (IH _ _ _ _ _ Hl).
Qed.

Section Returns.
Context `{!NoThrowDestructor D}.

(** With a destructor that returns, the operations are those of the
    model without destructor. *)
Lemma dtor_destroy_returns p q : DtorQueue.destroy p q = destroy p q.
Proof.
  unfold DtorQueue.destroy, destroy.
  destruct (buf_ q !! Z.to_nat p) as [[x|]|]; try reflexivity.
  rewrite destruct_returns. reflexivity.
Qed.

Lemma dtor_try_pop_returns out q : DtorQueue.try_pop CAP out q = try_pop CAP out q.
Proof.
  unfold DtorQueue.try_pop, try_pop, bind, load_tail, load_head.
  destruct (tail_ q =? head_ q); [reflexivity|].
  destruct (elem_ptr CAP (tail_ q) q) as [p q1| | |]; try reflexivity.
  destruct (deref p q1) as [x q2| | |]; try reflexivity.
  destruct (eval (copy_assign out x) q2) as [o q3| | |]; try reflexivity.
  rewrite dtor_destroy_returns. reflexivity.
Qed.

Lemma dtor_clear_loop_returns fuel : forall t h q,
  DtorQueue.clear_loop CAP fuel t h q = clear_loop CAP fuel t h q.
Proof.
  induction fuel as [|fuel IH]; intros t h q; simpl; [reflexivity|].
  destruct (t =? h); [reflexivity|]. unfold bind.
  destruct (elem_ptr CAP t q) as [p q1| | |]; try reflexivity.
  destruct (deref p q1) as [x q2| | |]; try reflexivity.
  rewrite dtor_destroy_returns.
  destruct (destroy p q2) as [u q3| | |]; try reflexivity.
  rewrite IH. reflexivity.
Qed.

Lemma dtor_clear_returns fuel q : DtorQueue.clear CAP fuel q = clear CAP fuel q.
Proof.
  unfold DtorQueue.clear, clear, noexcept_, bind, load_tail, load_head.
  rewrite dtor_clear_loop_returns.
  destruct (clear_loop CAP fuel (tail_ q) (head_ q) q) as [r q1|e q1| |] eqn:Hl;
    try reflexivity.
  exfalso. exact (clear_loop_never_throws _ _ _ _ _ _ Hl).
Qed.

Lemma dtor_reachable_reachable q :
  DtorQueue.dtor_reachable CAP q -> reachable CAP q.
Proof.
  unfold DtorQueue.dtor_reachable, reachable. intros Hr.
  apply (rtc_ind_r (R:=DtorQueue.dtor_step CAP) (fun q => rtc (step CAP) (init CAP) q)
           (init CAP)); [| |exact Hr].
  - apply rtc_refl.
  - intros q1 q2 _ Hs IH. eapply rtc_r; [exact IH|].
    destruct Hs as [v q1 q2 Hf|v q1 q2 Hf|Args ctor args q1 q2 Hf|out q1 q2 Hf].
    + exact (step_push CAP v q1 q2 Hf).
    + exact (step_push_move CAP v q1 q2 Hf).
    + exact (step_emplace CAP Args ctor args q1 q2 Hf).
    + rewrite dtor_try_pop_returns in Hf. exact (step_pop CAP out q1 q2 Hf).
Qed.

Lemma dtor_run_returns (ops : list (op (T:=T))) : forall h q,
  DtorQueue.dtor_run CAP ops h q = run CAP ops h q.
Proof.
  induction ops as [|o ops IH]; intros h q; simpl; [reflexivity|].
  destruct o as [v|v|out]; try rewrite dtor_try_pop_returns;
    match goal with |- context [match ?r with _ => _ end] => destruct r as [[h1 q1]|] end;
    auto.
Qed.

Hypothesis CAP_size_t : CAP < 2 ^ SIZE_BITS.
Hypothesis CAP_valid : valid_capacity CAP = true.

(** X7. For an element type whose destructor returns (its constructors
    and its copy assignment may throw): no call on a state reachable
    from a new queue has undefined behaviour. Every producer operation
    and [try_pop] returns or throws, and [clear()] returns within [CAP]
    iterations. *)
Theorem calls_are_defined_when_destructor_returns q :
  DtorQueue.dtor_reachable CAP q ->
  (forall (Args : Type) (ctor : Args -> attempt exn T) args,
      is_Some (final_state (try_emplace CAP ctor args q))) /\
  (forall v, is_Some (final_state (try_push CAP v q))) /\
  (forall v, is_Some (final_state (try_push_move CAP v q))) /\
  (forall out, is_Some (final_state (DtorQueue.try_pop CAP out q))) /\
  (forall fuel, (Z.to_nat CAP <= fuel)%nat ->
                exists trace q', DtorQueue.clear CAP fuel q = Returned trace q').
Proof using CAP_size_t CAP_valid NoThrowDestructor0.
  intros Hr. apply dtor_reachable_reachable in Hr.
  destruct (queue_calls_defined CAP CAP_size_t CAP_valid q Hr)
    as (H1 & H2 & H3 & H4 & H5).
  split; [exact H1|]. split; [exact H2|]. split; [exact H3|]. split.
  - intros out. rewrite dtor_try_pop_returns. apply H4.
  - intros fuel Hfuel. rewrite dtor_clear_returns. apply H5. exact Hfuel.
Qed.

(** X8. No leak and no double destruction, for an element type whose
    destructor returns (its constructors and its copy assignment may
    throw): any sequence of pushes and pops on a new queue runs without
    undefined behaviour; the destructor of the queue then returns; the
    number of pushes that returned [true] (objects constructed) is the
    number of pops that returned [true] plus the number of destructor
    calls the queue's destructor makes (objects destroyed); and
    afterwards no slot holds an object. *)
Theorem constructions_balance_destructions_when_destructor_returns
    (ops : list (op (T:=T))) (fuel : nat) :
  (Z.to_nat CAP <= fuel)%nat ->
  exists h q trace q',
    DtorQueue.dtor_run CAP ops (mkHistory [] []) (init CAP) = Some (h, q) /\
    DtorQueue.destructor CAP fuel q = Returned trace q' /\
    length (pushed h) = (length (popped h) + length trace)%nat /\
    (forall i, 0 <= i < CAP -> buf_ q' !! Z.to_nat i = Some None).
Proof using CAP_size_t CAP_valid NoThrowDestructor0.
  intros Hfuel.
  destruct (queue_constructions_balance CAP CAP_size_t CAP_valid ops fuel Hfuel)
    as (h & q & trace & q' & Hrun & Hd & Hcount & Hvac).
  exists h, q, trace, q'. rewrite dtor_run_returns.
  unfold DtorQueue.destructor. rewrite dtor_clear_returns. auto.
Qed.

End Returns.

End DtorQueueFacts.

(** With a destructor that throws, [try_pop] leaves by the exception
    after the object's lifetime has ended and before [tail] is advanced:
    the next [try_pop], and [clear()], then meet a slot without an
    object. *)
Example throwing_destructor_pop :
  DtorQueue.try_pop (E:=plain_element) (D:=throwing_destructor) 4 0 negative_pushed
    = Threw tt (mkQueue [None; None; None; None] 1 0) /\
  DtorQueue.try_pop (E:=plain_element) (D:=throwing_destructor) 4 0
    (mkQueue [None; None; None; None] 1 0) = Undefined /\
  DtorQueue.clear (D:=throwing_destructor) 4 4 (mkQueue [None; None; None; None] 1 0)
    = Undefined /\
  DtorQueue.clear (D:=throwing_destructor) 4 4 negative_pushed = Undefined.
Proof. repeat split; reflexivity. Qed.

(** ** The pool with the destructor of the element type *)

Module DtorPoolFacts.
Import ObjectPool.

Section Facts.
Context {exn T : Type} {D : Destructor exn T} `{!NoThrowDestructor D}.
Variables N slot_size : Z.
Hypothesis N_valid : valid_size N = true.
Hypothesis slot_size_pos : 0 < slot_size.
Hypothesis pool_bytes : N * slot_size < 2 ^ 63.
Implicit Types (p : pool T).





End Facts.

(** With a destructor that throws, [destroy] leaves by the exception
    before [release_index]: the slot holds no object and is not on the
    free list, and [free_slots()] stays below [capacity()] minus the
    number of live objects. *)
Example throwing_destructor_leaks_slot :
  create (exn:=unit) 3 8 (fun v : Z => Done v) (-5) (new_pool 3)
    = Returned (Some 0) (mkPool [Some (-5); None; None] [1; 2; -1] 1 2) /\
  DtorPool.destroy (D:=throwing_destructor) 3 8 (Some 0)
    (mkPool [Some (-5); None; None] [1; 2; -1] 1 2)
    = Threw tt (mkPool [None; None; None] [1; 2; -1] 1 2) /\
  free_slots (mkPool [None; None; @None Z] [1; 2; -1] 1 2) = 2 /\
  capacity 3 (mkPool [None; None; @None Z] [1; 2; -1] 1 2)
    - Z.of_nat (live_count [None; None; @None Z]) = 3.
Proof. repeat split; reflexivity. Qed.

End DtorPoolFacts.

(** ** The theorems on destructors at concrete inputs *)

Lemma quiet_destructor_returns : NoThrowDestructor quiet_destructor.
Proof. constructor. intros x. reflexivity. Qed.

(** Every call on [two_pushed] returns or throws. *)
Lemma calls_are_defined_when_destructor_returns_witness :
  4 < 2 ^ SIZE_BITS /\ valid_capacity 4 = true /\
  DtorQueue.dtor_reachable (E:=plain_element) (D:=quiet_destructor) 4 two_pushed /\
  (forall v, is_Some (final_state (try_push (E:=plain_element) 4 v two_pushed))) /\
  (forall out, is_Some (final_state
     (DtorQueue.try_pop (E:=plain_element) (D:=quiet_destructor) 4 out two_pushed))) /\
  (exists trace q',
     DtorQueue.clear (D:=quiet_destructor) 4 4 two_pushed = Returned trace q').
Proof.
  assert (Hr : DtorQueue.dtor_reachable (E:=plain_element) (D:=quiet_destructor) 4 two_pushed).
  { eapply rtc_l; [apply (DtorQueue.dtor_step_push 4 7); reflexivity|].
    eapply rtc_l; [apply (DtorQueue.dtor_step_push 4 8); reflexivity|].
    apply rtc_refl. }
  split; [reflexivity|]. split; [reflexivity|]. split; [exact Hr|].
  pose proof (@calls_are_defined_when_destructor_returns unit Z plain_element
                quiet_destructor 4 quiet_destructor_returns eq_refl eq_refl two_pushed Hr)
    as (_ & H2 & _ & H4 & H5).
  split; [exact H2|]. split; [exact H4|].
  exact (H5 4%nat ltac:(simpl; lia)).
Defined.

(** Constructions and destructions of a run with a throwing push. *)
Lemma constructions_balance_destructions_when_destructor_returns_witness :
  4 < 2 ^ SIZE_BITS /\ valid_capacity 4 = true /\ (Z.to_nat 4 <= 4)%nat /\
  exists h q trace q',
    DtorQueue.dtor_run (E:=checked_element) (D:=quiet_destructor) 4
      [Push 5; Push (-1); PushMove 6; Pop 0] (mkHistory [] []) (init 4) = Some (h, q) /\
    DtorQueue.destructor (D:=quiet_destructor) 4 4 q = Returned trace q' /\
    length (pushed h) = (length (popped h) + length trace)%nat /\
    (forall i, 0 <= i < 4 -> buf_ q' !! Z.to_nat i = Some None).
Proof.
  split; [reflexivity|]. split; [reflexivity|]. split; [simpl; lia|].
  exact (@constructions_balance_destructions_when_destructor_returns unit Z checked_element
           quiet_destructor 4 quiet_destructor_returns eq_refl eq_refl
           [Push 5; Push (-1); PushMove 6; Pop 0] 4%nat ltac:(simpl; lia)).
Defined.


